(** * A filesystem context server: the request handlers of [index.mjs]

  The program wires six request handlers of a protocol server around two
  calls of Node's [fs/promises] module, [readdir] and [readFile], and two
  functions of Node's [path] module, [join] and [relative].  This file
  embeds the handlers in Rocq and proves what they do.

  Strings are sequences of code units.  The handlers only concatenate,
  compare, search and split strings, code unit by code unit, so Rocq's
  [string] stands for the strings of the program; [toLowerCase], which is
  not code-unit-wise, is a parameter of the development. *)

From Stdlib Require Import String Ascii List Bool Arith Lia PeanoNat PrimFloat FinFun.
Import ListNotations.
Open Scope list_scope.
Open Scope string_scope.

Set Implicit Arguments.
Set Warnings "-register-all".


(** ** Strings *)

Module Str.

(** [s.length === 0] *)
Definition is_empty (s : string) : bool :=
  match s with EmptyString => true | String _ _ => false end.

(** [s.split(sep)] for a one-character separator: the pieces between the
    separators, of which there is always at least one. *)
Fixpoint split (sep : ascii) (s : string) : list string :=
  match s with
  | EmptyString => [EmptyString]
  | String c rest =>
      if Ascii.eqb c sep then EmptyString :: split sep rest
      else match split sep rest with
           | seg :: segs => String c seg :: segs
           | [] => [String c EmptyString]
           end
  end.

(** [s.charCodeAt(0) === c] *)
Definition starts_with_char (c : ascii) (s : string) : bool :=
  match s with String d _ => Ascii.eqb d c | EmptyString => false end.

(** [s.charCodeAt(s.length - 1) === c] *)
Fixpoint ends_with_char (c : ascii) (s : string) : bool :=
  match s with
  | EmptyString => false
  | String d EmptyString => Ascii.eqb d c
  | String _ rest => ends_with_char c rest
  end.

(** [s.includes(q)]: [q] occurs in [s] as a contiguous run. *)
Fixpoint includes (s q : string) : bool :=
  String.prefix q s ||
  match s with
  | EmptyString => false
  | String _ rest => includes rest q
  end.

(** No code unit of [s] is [c]. *)
Fixpoint free_of (c : ascii) (s : string) : bool :=
  match s with
  | EmptyString => true
  | String d rest => negb (Ascii.eqb d c) && free_of c rest
  end.

End Str.

(** ** Node's [path] module, POSIX flavour *)

Module Path.

Definition slash : ascii := "/"%char.

(** [normalizeString(path, allowAboveRoot)], on the segments of the path:
    empty and ["."] segments are dropped, [".."] removes the segment
    before it, or is kept when there is none and the path is relative.
    [acc] holds the segments kept so far, last one first. *)
Fixpoint normalize_segments (allowAboveRoot : bool)
         (acc : list string) (segs : list string) : list string :=
  match segs with
  | [] => rev acc
  | seg :: rest =>
      if String.eqb seg "" || String.eqb seg "." then
        normalize_segments allowAboveRoot acc rest
      else if String.eqb seg ".." then
        match acc with
        | last :: acc' =>
            if String.eqb last ".." then
              normalize_segments allowAboveRoot
                (if allowAboveRoot then ".." :: acc else acc) rest
            else normalize_segments allowAboveRoot acc' rest
        | [] =>
            normalize_segments allowAboveRoot
              (if allowAboveRoot then [".."] else []) rest
        end
      else normalize_segments allowAboveRoot (seg :: acc) rest
  end.

Definition normalizeString (path : string) (allowAboveRoot : bool) : string :=
  String.concat "/" (normalize_segments allowAboveRoot [] (Str.split slash path)).

Definition isAbsolute (path : string) : bool := Str.starts_with_char slash path.

(** [path.normalize(p)] *)
Definition normalize (path : string) : string :=
  if Str.is_empty path then "."
  else
    let absolute := isAbsolute path in
    let trailingSeparator := Str.ends_with_char slash path in
    let p := normalizeString path (negb absolute) in
    if Str.is_empty p then
      (if absolute then "/" else if trailingSeparator then "./" else ".")
    else
      let p := if trailingSeparator then p ++ "/" else p in
      if absolute then "/" ++ p else p.

(** [path.join(a, b)]: the non-empty arguments joined by a slash, then
    normalized. *)
Definition join (a b : string) : string :=
  let joined :=
    if Str.is_empty a then b
    else if Str.is_empty b then a
    else a ++ "/" ++ b in
  if Str.is_empty joined then "." else normalize joined.

(** The segments of [path.resolve(p)], where [cwd] is the working
    directory of the process: a relative [p] is taken from [cwd]. *)
Definition resolve_segments (cwd p : string) : list string :=
  let full := if isAbsolute p then p
              else if Str.is_empty p then cwd else cwd ++ "/" ++ p in
  normalize_segments false [] (Str.split slash full).

Definition resolve (cwd p : string) : string :=
  "/" ++ String.concat "/" (resolve_segments cwd p).

(** The two paths without their longest common run of leading segments. *)
Fixpoint strip_common (from to : list string) : list string * list string :=
  match from, to with
  | f :: from', t :: to' =>
      if String.eqb f t then strip_common from' to' else (from, to)
  | _, _ => (from, to)
  end.

(** [path.relative(from, to)]: both paths are resolved; the result climbs
    with one [".."] for each segment of [from] below the common
    directory, then descends along the rest of [to]. *)
Definition relative (cwd from to : string) : string :=
  if String.eqb from to then ""
  else
    let f := resolve_segments cwd from in
    let t := resolve_segments cwd to in
    if String.eqb (resolve cwd from) (resolve cwd to) then ""
    else
      let '(up, down) := strip_common f t in
      String.concat "/" (map (fun _ => "..") up ++ down)%list.

End Path.

(** ** The values of a request *)

Module JS.

(** The values that arrive in the arguments of a request: what a JSON text
    parses to, and [undefined] for what is absent.  A number is an IEEE 754
    binary64 float, an object the list of its properties. *)
Inductive value : Type :=
| Undefined
| Null
| Bool (b : bool)
| Number (x : float)
| Str (s : string)
| Array (elems : list value)
| Object (props : list (string * value)).

(** Truthiness, as [!v], [v ? a : b] and [if (v)] test it. *)
Definition truthy (v : value) : bool :=
  match v with
  | Undefined | Null => false
  | Bool b => b
  | Number x => PrimFloat.eqb x x && negb (PrimFloat.eqb x 0%float)
  | Str s => negb (Str.is_empty s)
  | Array _ | Object _ => true
  end.

(** [v ?? d] *)
Definition coalesce (v d : value) : value :=
  match v with
  | Undefined | Null => d
  | _ => v
  end.

(** [o.key] on an object given by its properties *)
Fixpoint get (props : list (string * value)) (key : string) : value :=
  match props with
  | [] => Undefined
  | (k, v) :: rest => if String.eqb k key then v else get rest key
  end.

(** [o?.key], for an [o] that is an object or [undefined] *)
Definition opt_get (o : option (list (string * value))) (key : string) : value :=
  match o with
  | None => Undefined
  | Some props => get props key
  end.

(** [typeof v] *)
Definition typeof (v : value) : string :=
  match v with
  | Undefined => "undefined"
  | Null | Array _ | Object _ => "object"
  | Bool _ => "boolean"
  | Number _ => "number"
  | Str _ => "string"
  end.

(** [v.length === 0], for a [v] known to be a string *)
Definition length_is_zero (v : value) : bool :=
  match v with
  | Str s => Str.is_empty s
  | _ => false
  end.

Section ToString.

(** How the runtime prints a number, [Number.prototype.toString]. *)
Variable number_to_string : float -> string.

(** The conversion of a template literal, [`${v}`]. *)
Fixpoint ToString (v : value) : string :=
  match v with
  | Undefined => "undefined"
  | Null => "null"
  | Bool true => "true"
  | Bool false => "false"
  | Number x => number_to_string x
  | Str s => s
  | Array elems =>
      String.concat ","
        (map (fun e => match e with
                       | Undefined | Null => ""
                       | _ => ToString e
                       end) elems)
  | Object _ => "[object Object]"
  end.

End ToString.

End JS.

(** ** [JSON.stringify] of an array of strings *)

Module JSON.

Definition char (n : nat) : string := String (ascii_of_nat n) EmptyString.

Definition hex_digit (n : nat) : string :=
  match n with
  | 0 => "0" | 1 => "1" | 2 => "2" | 3 => "3" | 4 => "4" | 5 => "5"
  | 6 => "6" | 7 => "7" | 8 => "8" | 9 => "9" | 10 => "a" | 11 => "b"
  | 12 => "c" | 13 => "d" | 14 => "e" | _ => "f"
  end.

(** One code unit of a quoted string: the quote, the backslash and the
    control characters are escaped. *)
Definition quote_char (c : ascii) : string :=
  let n := nat_of_ascii c in
  let backslash := char 92 in
  if Nat.eqb n 8 then backslash ++ "b"
  else if Nat.eqb n 9 then backslash ++ "t"
  else if Nat.eqb n 10 then backslash ++ "n"
  else if Nat.eqb n 12 then backslash ++ "f"
  else if Nat.eqb n 13 then backslash ++ "r"
  else if Nat.eqb n 34 then backslash ++ char 34
  else if Nat.eqb n 92 then backslash ++ backslash
  else if Nat.ltb n 32 then backslash ++ "u00" ++ hex_digit (n / 16) ++ hex_digit (n mod 16)
  else String c EmptyString.

Fixpoint quote_body (s : string) : string :=
  match s with
  | EmptyString => EmptyString
  | String c rest => quote_char c ++ quote_body rest
  end.

Definition quote (s : string) : string := char 34 ++ quote_body s ++ char 34.

(** [JSON.stringify(files, null, 2)] for an array of strings: one quoted
    element per line, indented by two spaces. *)
Definition stringify (files : list string) : string :=
  match files with
  | [] => "[]"
  | _ :: _ =>
      "[" ++ char 10 ++ "  "
          ++ String.concat ("," ++ char 10 ++ "  ") (map quote files)
          ++ char 10 ++ "]"
  end.

End JSON.

(** ** The filesystem and the effects of a handler *)

(** A thrown [Error]: the handlers only read its [message]. *)
Record Error : Type := mkError { message : string }.

(** The type of a directory entry, as [readdir] reports it with
    [withFileTypes: true]. *)
Inductive FileType : Type :=
| TypeFile | TypeDir | TypeLink
| TypeFifo | TypeSocket | TypeChar | TypeBlock.

Module Dirent.

Record t : Type := make { name : string; type : FileType }.

Definition isDirectory (d : t) : bool :=
  match type d with TypeDir => true | _ => false end.

Definition isFile (d : t) : bool :=
  match type d with TypeFile => true | _ => false end.

End Dirent.

(** The filesystem as the handlers see it, through the two calls they make:
    the entries of the directory at a path, in the order the system lists
    them, and the text of the file at a path; either can fail. *)
Record FileSystem : Type := {
  entries_at : string -> Error + list Dirent.t;
  text_at : string -> Error + string
}.

(** The calls made to [fs/promises]. *)
Inductive Syscall : Type :=
| SysReaddir (path : string)
| SysReadFile (path : string).

(** The world a handler runs in: the filesystem, what was written to the
    standard error stream, and the log of the filesystem calls made so far
    (oldest first). *)
Record World : Type := {
  disk : FileSystem;
  stderr : list string;
  syscalls : list Syscall
}.

(** How a computation ends: it returns, it throws, or it is still running
    when the fuel of the model is spent. *)
Inductive outcome (A : Type) : Type :=
| Returned (a : A)
| Thrown (e : Error)
| Pending.
Arguments Returned {A} a.
Arguments Thrown {A} e.
Arguments Pending {A}.

Definition io (A : Type) : Type := World -> outcome A * World.

Definition ret {A : Type} (a : A) : io A := fun w => (Returned a, w).

Definition throw {A : Type} (e : Error) : io A := fun w => (Thrown e, w).

Definition pending {A : Type} : io A := fun w => (Pending, w).

Definition bind {A B : Type} (m : io A) (k : A -> io B) : io B :=
  fun w =>
    match m w with
    | (Returned a, w') => k a w'
    | (Thrown e, w') => (Thrown e, w')
    | (Pending, w') => (Pending, w')
    end.

(** [try { m } catch (error) { h error }] *)
Definition try_catch {A : Type} (m : io A) (h : Error -> io A) : io A :=
  fun w =>
    match m w with
    | (Thrown e, w') => h e w'
    | r => r
    end.

Notation "x <- m ;; k" := (bind m (fun x => k))
  (at level 61, m at next level, right associativity).
Notation "m ;;; k" := (bind m (fun _ => k))
  (at level 61, right associativity).

Definition of_result {A : Type} (r : Error + A) : io A :=
  match r with
  | inl e => throw e
  | inr a => ret a
  end.

Definition log_call (c : Syscall) : io unit :=
  fun w => (Returned tt,
            {| disk := disk w; stderr := stderr w;
               syscalls := (syscalls w ++ [c])%list |}).

(** [process.stderr.write(s)] *)
Definition stderr_write (s : string) : io unit :=
  fun w => (Returned tt,
            {| disk := disk w; stderr := (stderr w ++ [s])%list;
               syscalls := syscalls w |}).

(** [readdir(dir, { withFileTypes: true })] *)
Definition readdir_withFileTypes (dir : string) : io (list Dirent.t) :=
  log_call (SysReaddir dir) ;;;
  fun w => of_result (entries_at (disk w) dir) w.

(** [readdir(dir)]: the names only *)
Definition readdir (dir : string) : io (list string) :=
  items <- readdir_withFileTypes dir ;;
  ret (map Dirent.name items).

(** [readFile(path, "utf-8")] *)
Definition readFile (path : string) : io string :=
  log_call (SysReadFile path) ;;;
  fun w => of_result (text_at (disk w) path) w.

(** The body of [for (const item of items) { ... }] run over the items in
    order, threading the variable the loop updates. *)
Fixpoint for_of {A S : Type} (items : list A) (body : S -> A -> io S) (s : S) : io S :=
  match items with
  | [] => ret s
  | item :: rest => s' <- body s item ;; for_of rest body s'
  end.

(** ** The server *)

(** The responses of the handlers. *)
Record Resource : Type := {
  res_uri : string;
  res_mimeType : string;
  res_name : string
}.

Record ResourceContents : Type := {
  rc_uri : string;
  rc_mimeType : string;
  rc_text : string
}.

Record TextContent : Type := {
  tc_type : string;
  tc_text : string
}.

Record PromptMessage : Type := {
  pm_role : string;
  pm_content : TextContent
}.

Record GetPromptResult : Type := {
  gp_description : string;
  gp_messages : list PromptMessage
}.

(** The requests, as the protocol library hands them to the handlers. *)
Record CallToolRequest : Type := {
  ct_name : string;
  ct_arguments : option (list (string * JS.value))
}.

Record GetPromptRequest : Type := {
  gpr_name : string;
  gpr_arguments : option (list (string * JS.value))
}.

(** What a completion refers to: a prompt by its name or a resource by its
    URI. *)
Inductive Reference : Type :=
| PromptReference (name : string)
| ResourceReference (uri : string).

Record CompleteRequest : Type := {
  cr_ref : Reference;
  cr_argument_name : string;
  cr_argument_value : string
}.

(** [ref.name], which a resource reference does not have *)
Definition ref_name (r : Reference) : JS.value :=
  match r with
  | PromptReference n => JS.Str n
  | ResourceReference _ => JS.Undefined
  end.

(** [v === s] for a string [s] *)
Definition strict_equal_string (v : JS.value) (s : string) : bool :=
  match v with
  | JS.Str t => String.eqb t s
  | _ => false
  end.

Definition FILE_PROMPT_NAME : string := "file-contents".

Definition newline : string := String (ascii_of_nat 10) EmptyString.

Section Server.

(** [process.cwd()] when the server starts.  The program never changes its
    working directory, so this is also the directory from which
    [path.relative] resolves a relative path. *)
Variable BASE_DIR : string.

(** Functions of the runtime: [String.prototype.toLowerCase], the printing
    of a number, the [pathname] of [new URL(uri)] (or the error the
    constructor throws), and the message of the error with which [path.join]
    refuses an argument that is not a string. *)
Variable toLowerCase : string -> string.
Variable number_to_string : float -> string.
Variable URL_pathname : string -> Error + string.
Variable invalid_arg_message : JS.value -> string.

Definition join := Path.join.
Definition relative := Path.relative BASE_DIR.

(** [join(BASE_DIR, path)] for a [path] taken from the arguments of a
    request: [join] throws when it is not a string. *)
Definition join_argument (dir : string) (path : JS.value) : io string :=
  match path with
  | JS.Str s => ret (join dir s)
  | _ => throw (mkError (invalid_arg_message path))
  end.

(** [listFilesRecursively(dir)]; the fuel bounds the depth of the calls. *)
Fixpoint listFilesRecursively (fuel : nat) (dir : string) : io (list string) :=
  match fuel with
  | O => pending
  | S fuel' =>
      items <- readdir_withFileTypes dir ;;
      for_of items
        (fun files item =>
           let fullPath := join dir (Dirent.name item) in
           if Dirent.isDirectory item then
             sub <- listFilesRecursively fuel' fullPath ;;
             ret (files ++ sub)%list
           else
             ret (files ++ [relative BASE_DIR fullPath])%list)
        []
  end.

(** The handler of [ListResourcesRequestSchema] *)
Definition listResources (fuel : nat) : io (list Resource) :=
  files <- listFilesRecursively fuel BASE_DIR ;;
  ret (map (fun file =>
              {| res_uri := "file://" ++ join BASE_DIR file;
                 res_mimeType := "text/plain";
                 res_name := file |}) files).

(** The handler of [ReadResourceRequestSchema] *)
Definition readResource (uri : string) : io (list ResourceContents) :=
  filePath <- of_result (URL_pathname uri) ;;
  try_catch
    (contents <- readFile filePath ;;
     ret [ {| rc_uri := uri; rc_mimeType := "text/plain"; rc_text := contents |} ])
    (fun error => throw (mkError ("Failed to read file: " ++ message error))).

(** The handler of [CallToolRequestSchema] *)
Definition callTool (fuel : nat) (request : CallToolRequest) : io (list TextContent) :=
  if String.eqb (ct_name request) "list-files" then
    let recursive :=
      JS.coalesce (JS.opt_get (ct_arguments request) "recursive") (JS.Bool false) in
    try_catch
      (files <- (if JS.truthy recursive
                 then listFilesRecursively fuel BASE_DIR
                 else readdir BASE_DIR) ;;
       ret [ {| tc_type := "text"; tc_text := JSON.stringify files |} ])
      (fun error => throw (mkError ("Failed to list files: " ++ message error)))
  else if String.eqb (ct_name request) "read-file" then
    let path := JS.opt_get (ct_arguments request) "path" in
    if negb (JS.truthy path) then throw (mkError "Path is required")
    else
      try_catch
        (fullPath <- join_argument BASE_DIR path ;;
         contents <- readFile fullPath ;;
         ret [ {| tc_type := "text"; tc_text := contents |} ])
        (fun error => throw (mkError ("Failed to read file: " ++ message error)))
  else throw (mkError "Tool not found").

(** The handler of [CompleteRequestSchema] *)
Definition complete (fuel : nat) (request : CompleteRequest) : io (list string) :=
  stderr_write ("Handling completions/complete request" ++ newline) ;;;
  if strict_equal_string (ref_name (cr_ref request)) FILE_PROMPT_NAME then
    let fileQuery := cr_argument_value request in
    files <- listFilesRecursively fuel BASE_DIR ;;
    ret (filter (fun file =>
                   Str.includes (toLowerCase file) (toLowerCase fileQuery))
           files)
  else throw (mkError "unknown prompt").

(** The handler of [GetPromptRequestSchema] *)
Definition getPrompt (request : GetPromptRequest) : io GetPromptResult :=
  stderr_write ("Handling prompts/get request" ++ newline) ;;;
  if String.eqb (gpr_name request) FILE_PROMPT_NAME then
    let path := JS.opt_get (gpr_arguments request) "path" in
    if negb (String.eqb (JS.typeof path) "string") || JS.length_is_zero path then
      throw (mkError ("Invalid path: " ++ JS.ToString number_to_string path))
    else
      try_catch
        (fullPath <- join_argument BASE_DIR path ;;
         contents <- readFile fullPath ;;
         ret {| gp_description := "Contents of " ++ JS.ToString number_to_string path;
                gp_messages :=
                  [ {| pm_role := "user";
                       pm_content := {| tc_type := "text"; tc_text := contents |} |} ] |})
        (fun error => throw (mkError ("Failed to read file: " ++ message error)))
  else throw (mkError ("Prompt '" ++ gpr_name request ++ "' not implemented")).

End Server.

(** ** What the walker is measured against *)

(** A name that a directory can hold: not empty, without a slash, and
    neither of the two names [readdir] leaves out. *)
Definition wf_name (s : string) : bool :=
  negb (Str.is_empty s) && Str.free_of Path.slash s
  && negb (String.eqb s ".") && negb (String.eqb s "..").

(** The absolute path with the given segments; the root has none. *)
Definition abs_path (segs : list string) : string :=
  "/" ++ String.concat "/" segs.

(** The path with the given segments, relative to some directory. *)
Definition rel_path (segs : list string) : string := String.concat "/" segs.

(** The directory with segments [dir] can be read and lists [it]. *)
Definition lists (fs : FileSystem) (dir : list string) (it : Dirent.t) : Prop :=
  exists items, entries_at fs (abs_path dir) = inr items /\ In it items.

(** [reaches fs dir r it]: going down from the directory [dir] along the
    segments [r], through entries that are directories, one arrives at the
    entry [it]. *)
Inductive reaches (fs : FileSystem) : list string -> list string -> Dirent.t -> Prop :=
| reaches_entry : forall dir it,
    lists fs dir it ->
    reaches fs dir [Dirent.name it] it
| reaches_below : forall dir d r it,
    lists fs dir d ->
    Dirent.isDirectory d = true ->
    reaches fs (dir ++ [Dirent.name d])%list r it ->
    reaches fs dir (Dirent.name d :: r) it.

(** The directory [dir] is the root of a tree: it can be read, its entries
    have proper names, no two the same, and each entry that is a directory
    is the root of a tree in turn.  Being inductive, a tree is finite. *)
Inductive tree (fs : FileSystem) : list string -> Prop :=
| tree_dir : forall dir items,
    entries_at fs (abs_path dir) = inr items ->
    NoDup (map Dirent.name items) ->
    Forall (fun it => wf_name (Dirent.name it) = true) items ->
    (forall d, In d items -> Dirent.isDirectory d = true ->
               tree fs (dir ++ [Dirent.name d])%list) ->
    tree fs dir.

(** The same without the demand that every directory can be read: a
    directory that cannot be read has nothing below it. *)
Inductive finite_tree (fs : FileSystem) : string -> Prop :=
| finite_unreadable : forall dir e,
    entries_at fs dir = inl e ->
    finite_tree fs dir
| finite_dir : forall dir items,
    entries_at fs dir = inr items ->
    (forall d, In d items -> Dirent.isDirectory d = true ->
               finite_tree fs (Path.join dir (Dirent.name d))) ->
    finite_tree fs dir.

(** The directory read behind a call succeeds. *)
Definition call_succeeds (fs : FileSystem) (c : Syscall) : Prop :=
  match c with
  | SysReaddir p => exists items, entries_at fs p = inr items
  | SysReadFile p => exists text, text_at fs p = inr text
  end.

(** Every segment is a proper name. *)
Definition good (r : list string) : Prop :=
  Forall (fun s => wf_name s = true) r.

(** [r] leads from [dir] to an entry that is not a directory. *)
Definition leaf (fs : FileSystem) (dir r : list string) : Prop :=
  exists it, reaches fs dir r it /\ Dirent.isDirectory it = false.

(** What the loop of the walker collects from the entries [its] of the
    directory [full]: the entries that are not directories, and what lies
    below those that are. *)
Definition via (fs : FileSystem) (full : list string) (its : list Dirent.t)
           (r : list string) : Prop :=
  (exists it, In it its /\ Dirent.isDirectory it = false /\ r = [Dirent.name it])
  \/ (exists d r', In d its /\ Dirent.isDirectory d = true /\
                   r = Dirent.name d :: r' /\
                   leaf fs (full ++ [Dirent.name d])%list r').

(** Relative paths in segments, none empty and no two the same. *)
Definition proper (R : list (list string)) : Prop :=
  NoDup R /\ Forall (fun r => good r /\ r <> []) R.

(** With fuel [n] or more, the walk of the directory [base ++ dir] returns
    the paths [R], each after the segments [dir], and leaves the
    filesystem as it was. *)
Definition walk_returns (fs : FileSystem) (base dir : list string)
           (n : nat) (R : list (list string)) : Prop :=
  forall fuel w, n <= fuel -> disk w = fs ->
    exists w',
      listFilesRecursively (abs_path base) fuel (abs_path (base ++ dir)) w
      = (Returned (map (fun r => rel_path (dir ++ r)) R), w')
      /\ disk w' = fs.

(** The walk of the base directory returns [files] whenever its fuel is
    enough. *)
Definition walker_returns (BASE_DIR : string) (fs : FileSystem)
           (files : list string) : Prop :=
  exists n, forall fuel w, n <= fuel -> disk w = fs ->
    fst (listFilesRecursively BASE_DIR fuel BASE_DIR w) = Returned files.

(** [files] holds, each once and as a path relative to [base], exactly the
    entries below [base] that [keep] selects, and no directory. *)
Definition lists_exactly (keep : Dirent.t -> bool) (fs : FileSystem)
           (base : list string) (files : list string) : Prop :=
  NoDup files
  /\ (forall p, In p files <->
                exists r it, reaches fs base r it /\ keep it = true /\ p = rel_path r)
  /\ (forall r it, reaches fs base r it -> Dirent.isDirectory it = true ->
                   ~ In (rel_path r) files).

(** The entries the walker keeps: all but the directories. *)
Definition not_directory (it : Dirent.t) : bool := negb (Dirent.isDirectory it).

(** What the log of a computation that only reads directories looks like:
    every read succeeded, but for the last one when the computation threw,
    and then it threw the error of that read. *)
Definition log_ok {A : Type} (fs : FileSystem) (out : outcome A)
           (calls : list Syscall) : Prop :=
  match out with
  | Thrown e =>
      exists pre p, calls = (pre ++ [SysReaddir p])%list
                    /\ entries_at fs p = inl e
                    /\ Forall (call_succeeds fs) pre
  | _ => Forall (call_succeeds fs) calls
  end.

(** A computation that leaves the filesystem and the error stream alone
    and adds such a log to the calls made before. *)
Definition traced {A : Type} (m : io A) : Prop :=
  forall w,
    disk (snd (m w)) = disk w
    /\ stderr (snd (m w)) = stderr w
    /\ exists calls, syscalls (snd (m w)) = (syscalls w ++ calls)%list
                     /\ log_ok (disk w) (fst (m w)) calls.

(** The world after the given filesystem calls, all else as it was. *)
Definition logged (w : World) (calls : list Syscall) : World :=
  {| disk := disk w; stderr := stderr w;
     syscalls := (syscalls w ++ calls)%list |}.

(** The world after a line was written to the error stream. *)
Definition reported (w : World) (line : string) : World :=
  {| disk := disk w; stderr := (stderr w ++ [line])%list;
     syscalls := syscalls w |}.

(** A computation that leaves the filesystem as it finds it. *)
Definition preserves_disk {A : Type} (m : io A) : Prop :=
  forall w, disk (snd (m w)) = disk w.

(** The text content of a tool result. *)
Definition text_content (text : string) : TextContent :=
  {| tc_type := "text"; tc_text := text |}.

(** The error a handler throws in place of the one it caught. *)
Definition rewrap (prefix : string) (e : Error) : Error :=
  mkError (prefix ++ message e).

(** The outcome of a handler that passes on what a computation returns,
    changed by [f], and what it throws, changed by [g]. *)
Definition map_outcome {A B : Type} (f : A -> B) (g : Error -> Error)
           (out : outcome A) : outcome B :=
  match out with
  | Returned a => Returned (f a)
  | Thrown e => Thrown (g e)
  | Pending => Pending
  end.

(** [q] occurs in [s]: some run of [s] is [q]. *)
Definition occurs_in (q s : string) : Prop :=
  exists pre post, s = pre ++ q ++ post.

(** The test of the completion handler: the query occurs in the path once
    both are in lower case. *)
Definition matches_query (toLowerCase : string -> string) (q file : string) : bool :=
  Str.includes (toLowerCase file) (toLowerCase q).

(** The resource of the file at the relative path [r] below [base]. *)
Definition resource_at (base r : list string) : Resource :=
  {| res_uri := "file://" ++ abs_path (base ++ r);
     res_mimeType := "text/plain";
     res_name := rel_path r |}.

(** The resource the catalog makes of an entry of the walker. *)
Definition resource_of (BASE_DIR file : string) : Resource :=
  {| res_uri := "file://" ++ Path.join BASE_DIR file;
     res_mimeType := "text/plain";
     res_name := file |}.

Definition COMPLETE_LINE : string := "Handling completions/complete request" ++ newline.
Definition GET_PROMPT_LINE : string := "Handling prompts/get request" ++ newline.

(** ** Concrete filesystems and runtime functions, for the examples *)

Fixpoint lookup {A : Type} (key : string) (table : list (string * A)) : option A :=
  match table with
  | [] => None
  | (k, a) :: rest => if String.eqb k key then Some a else lookup key rest
  end.

Definition ENOENT (syscall path : string) : Error :=
  mkError ("ENOENT: no such file or directory, " ++ syscall ++ " '" ++ path ++ "'").

Definition EACCES (syscall path : string) : Error :=
  mkError ("EACCES: permission denied, " ++ syscall ++ " '" ++ path ++ "'").

(** The filesystem given by a table of directories and a table of files. *)
Definition table_fs (dirs : list (string * (Error + list Dirent.t)))
           (files : list (string * string)) : FileSystem :=
  {| entries_at p :=
       match lookup p dirs with
       | Some r => r
       | None => inl (ENOENT "scandir" p)
       end;
     text_at p :=
       match lookup p files with
       | Some text => inr text
       | None => inl (ENOENT "open" p)
       end |}.

Definition file (n : string) : Dirent.t := Dirent.make n TypeFile.
Definition dir (n : string) : Dirent.t := Dirent.make n TypeDir.
Definition link (n : string) : Dirent.t := Dirent.make n TypeLink.

Definition demo_base : string := "/srv/app".

(** A small project: two directories of files and a file beside them. *)
Definition demo_fs : FileSystem :=
  table_fs
    [ ("/srv/app", inr [dir "src"; file "README.md"; dir "bar"]);
      ("/srv/app/src", inr [file "Foo.txt"; file "baz.txt"]);
      ("/srv/app/bar", inr [file "foobar.md"]) ]
    [ ("/srv/app/README.md", "read me");
      ("/srv/app/src/Foo.txt", "foo");
      ("/srv/app/src/baz.txt", "baz");
      ("/srv/app/bar/foobar.md", "foobar");
      ("/etc/passwd", "root:x:0:0") ].

(** A directory that holds a file and a symbolic link. *)
Definition link_fs : FileSystem :=
  table_fs
    [ ("/srv/app", inr [file "notes.txt"; link "current"]) ]
    [ ("/srv/app/notes.txt", "notes") ].

(** A project whose second directory cannot be read. *)
Definition locked_fs : FileSystem :=
  table_fs
    [ ("/srv/app", inr [file "a.txt"; dir "secret"; file "z.txt"]);
      ("/srv/app/secret", inl (EACCES "scandir" "/srv/app/secret")) ]
    [ ("/srv/app/a.txt", "a"); ("/srv/app/z.txt", "z") ].

Definition demo_segments : list string := ["srv"; "app"].

Definition boot (fs : FileSystem) : World :=
  {| disk := fs; stderr := []; syscalls := [] |}.

(** Lower case for the letters of ASCII, where it agrees with
    [toLowerCase]. *)
Definition ascii_lower (c : ascii) : ascii :=
  let n := nat_of_ascii c in
  if Nat.leb 65 n && Nat.leb n 90 then ascii_of_nat (n + 32) else c.

Fixpoint lower_ascii (s : string) : string :=
  match s with
  | EmptyString => EmptyString
  | String c rest => String (ascii_lower c) (lower_ascii rest)
  end.

(** The [pathname] of a URI [file://] followed by an absolute path, as the
    URL parser gives it when the path needs no escaping; anything else is
    refused here. *)
Definition file_URL_pathname (uri : string) : Error + string :=
  let rest := String.substring 7 (String.length uri - 7) uri in
  if String.prefix "file://" uri && Path.isAbsolute rest
  then inr rest
  else inl (mkError "Invalid URL").

(** A printer of numbers for the examples in which no number is printed. *)
Definition no_number : float -> string := fun _ => "".

(** The message of the error for an argument that is not a string, without
    the description of the argument that the runtime appends. *)
Definition arg_type_message : JS.value -> string :=
  fun _ => "The path argument must be of type string.".

(** ** The handlers that list the tools and the prompts *)

Record Tool : Type := {
  tool_name : string;
  tool_description : string;
  tool_inputSchema : JS.value
}.

Record PromptArgument : Type := {
  pa_name : string;
  pa_description : string;
  pa_required : bool
}.

Record Prompt : Type := {
  prompt_name : string;
  prompt_description : string;
  prompt_arguments : list PromptArgument
}.

(** The handler of [ListToolsRequestSchema] *)
Definition listTools : io (list Tool) :=
  ret [ {| tool_name := "list-files";
           tool_description := "Lists all files in the current directory";
           tool_inputSchema :=
             JS.Object
               [ ("type", JS.Str "object");
                 ("properties",
                  JS.Object
                    [ ("recursive",
                       JS.Object
                         [ ("type", JS.Str "boolean");
                           ("description", JS.Str "Whether to list files recursively");
                           ("default", JS.Bool false) ]) ]) ] |};
        {| tool_name := "read-file";
           tool_description := "Read contents of a specific file";
           tool_inputSchema :=
             JS.Object
               [ ("type", JS.Str "object");
                 ("properties",
                  JS.Object
                    [ ("path",
                       JS.Object
                         [ ("type", JS.Str "string");
                           ("description", JS.Str "Path to the file to read") ]) ]);
                 ("required", JS.Array [JS.Str "path"]) ] |} ].

(** The handler of [ListPromptsRequestSchema] *)
Definition listPrompts : io (list Prompt) :=
  stderr_write ("Handling prompts/list request" ++ newline) ;;;
  ret [ {| prompt_name := FILE_PROMPT_NAME;
           prompt_description := "Retrieve the contents of a file";
           prompt_arguments :=
             [ {| pa_name := "path";
                  pa_description := "the path to the file";
                  pa_required := true |} ] |} ].

(** [v.key] for a [v] that is an object; [undefined] for one that has no
    properties. *)
Definition value_prop (v : JS.value) (key : string) : JS.value :=
  match v with
  | JS.Object props => JS.get props key
  | _ => JS.Undefined
  end.

(** The default a tool declares for an argument in its input schema. *)
Definition declared_default (t : Tool) (argument : string) : JS.value :=
  value_prop (value_prop (value_prop (tool_inputSchema t) "properties") argument)
    "default".

(** The call is a directory read. *)
Definition is_readdir (c : Syscall) : bool :=
  match c with
  | SysReaddir _ => true
  | SysReadFile _ => false
  end.

(** The message with which [getPrompt] refuses a prompt it does not have. *)
Definition not_implemented (name : string) : Error :=
  mkError ("Prompt '" ++ name ++ "' not implemented").

(** The result of [getPrompt] for the file at [path] with the text
    [contents]; [shown] is the path as the description prints it. *)
Definition prompt_result (shown contents : string) : GetPromptResult :=
  {| gp_description := "Contents of " ++ shown;
     gp_messages :=
       [ {| pm_role := "user"; pm_content := text_content contents |} ] |}.

(** What a read of the file at [path] gives a handler that returns the
    text through [f] and rethrows an error after "Failed to read file: ". *)
Definition read_outcome {A : Type} (fs : FileSystem) (path : string)
           (f : string -> A) : outcome A :=
  match text_at fs path with
  | inr text => Returned (f text)
  | inl e => Thrown (rewrap "Failed to read file: " e)
  end.

(** The relative path that climbs [n] directories and then goes down along
    the segments [r]. *)
Definition climbing_path (n : nat) (r : list string) : string :=
  rel_path (repeat ".." n ++ r)%list.

(** [reaches_dir fs dir r]: the segments [r] lead from the directory [dir],
    through entries that are directories, to a directory; the empty path
    leads to [dir] itself. *)
Inductive reaches_dir (fs : FileSystem) : list string -> list string -> Prop :=
| reaches_dir_here : forall dir, reaches_dir fs dir []
| reaches_dir_below : forall dir d r,
    lists fs dir d ->
    Dirent.isDirectory d = true ->
    reaches_dir fs (dir ++ [Dirent.name d])%list r ->
    reaches_dir fs dir (Dirent.name d :: r).

(** What the walker lists for one entry [it] of the directory [dirpath],
    when [sub] gives what the walk of a subdirectory returns. *)
Definition listed_for (BASE_DIR dirpath : string) (sub : Dirent.t -> list string)
           (it : Dirent.t) : list string :=
  if Dirent.isDirectory it then sub it
  else [Path.relative BASE_DIR BASE_DIR (Path.join dirpath (Dirent.name it))].

(** A computation whose only filesystem calls are directory reads and
    which writes nothing to the error stream. *)
Definition reads_directories_only {A : Type} (m : io A) : Prop :=
  forall w,
    stderr (snd (m w)) = stderr w
    /\ exists calls, syscalls (snd (m w)) = (syscalls w ++ calls)%list
                     /\ forallb is_readdir calls = true.

(** The read of the directory at the segments [d] below [full]. *)
Definition readdir_below (full d : list string) : Syscall :=
  SysReaddir (abs_path (full ++ d)).

(** With fuel [n] or more, the walk of the directory [base ++ dir] returns,
    and the filesystem calls it makes are the reads of the directories at
    the segments [D] below it, in this order. *)
Definition walk_calls (fs : FileSystem) (base dir : list string)
           (n : nat) (D : list (list string)) : Prop :=
  forall fuel w, n <= fuel -> disk w = fs ->
    exists files,
      listFilesRecursively (abs_path base) fuel (abs_path (base ++ dir)) w
      = (Returned files, logged w (map (readdir_below (base ++ dir)) D)).

(** The directories at [D] are proper paths, no two the same, and they are
    those that [reach] holds of. *)
Definition directories_are (D : list (list string))
           (reach : list string -> Prop) : Prop :=
  NoDup D /\ Forall good D /\ forall r, In r D <-> reach r.

(** The value of a hexadecimal digit as [JSON.stringify] writes it. *)
Definition hex_value (c : ascii) : nat :=
  let n := nat_of_ascii c in
  if Nat.leb 97 n then n - 87 else n - 48.

(** Reads back, from the front of a text, one code unit as
    [JSON.quote_char] writes it, and gives the rest of the text. *)
Definition unquote_char (s : string) : option (ascii * string) :=
  match s with
  | EmptyString => None
  | String c rest =>
      if Nat.eqb (nat_of_ascii c) 92 then
        match rest with
        | EmptyString => None
        | String e rest' =>
            let k := nat_of_ascii e in
            if Nat.eqb k 98 then Some (ascii_of_nat 8, rest')
            else if Nat.eqb k 116 then Some (ascii_of_nat 9, rest')
            else if Nat.eqb k 110 then Some (ascii_of_nat 10, rest')
            else if Nat.eqb k 102 then Some (ascii_of_nat 12, rest')
            else if Nat.eqb k 114 then Some (ascii_of_nat 13, rest')
            else if Nat.eqb k 117 then
              match rest' with
              | String _ (String _ (String h (String l rest''))) =>
                  Some (ascii_of_nat (16 * hex_value h + hex_value l), rest'')
              | _ => None
              end
            else Some (e, rest')
        end
      else Some (c, rest)
  end.

(** The separator between the elements of a stringified array, and the
    elements with their separators before the text [tail]. *)
Definition array_separator : string := "," ++ JSON.char 10 ++ "  ".

Definition array_body (files : list string) (tail : string) : string :=
  String.concat array_separator (map JSON.quote files) ++ tail.

(** * Proofs *)

(** ** The model at work *)

Example join_ex1 : Path.join "/home/u/proj" "src" = "/home/u/proj/src".
Proof. reflexivity. Qed.
Example join_ex2 : Path.join "/" "a" = "/a".
Proof. reflexivity. Qed.
Example join_ex3 : Path.join "/home/u/proj" "../../x/./y/" = "/home/x/y/".
Proof. reflexivity. Qed.
Example relative_ex1 :
  Path.relative "/home/u/proj" "/home/u/proj" "/home/u/proj/src/a.txt" = "src/a.txt".
Proof. reflexivity. Qed.
Example relative_ex2 : Path.relative "/" "/a/b" "/a/bc" = "../bc".
Proof. reflexivity. Qed.
Example relative_ex3 : Path.relative "/" "/" "/a" = "a".
Proof. reflexivity. Qed.

Example stringify_ex :
  JSON.stringify ["a"; "b c"]
  = "[" ++ newline ++ "  " ++ JSON.quote "a" ++ "," ++ newline ++ "  "
        ++ JSON.quote "b c" ++ newline ++ "]".
Proof. reflexivity. Qed.
Example stringify_empty_ex : JSON.stringify [] = "[]".
Proof. reflexivity. Qed.
Example quote_ex :
  JSON.quote_body ("a" ++ newline ++ JSON.char 34)
  = "a" ++ JSON.char 92 ++ "n" ++ JSON.char 92 ++ JSON.char 34.
Proof. reflexivity. Qed.
Example walk_demo_ex :
  fst (listFilesRecursively demo_base 2 demo_base (boot demo_fs))
  = Returned ["src/Foo.txt"; "src/baz.txt"; "README.md"; "bar/foobar.md"].
Proof. reflexivity. Qed.
Example walk_out_of_fuel_ex :
  fst (listFilesRecursively demo_base 1 demo_base (boot demo_fs)) = Pending.
Proof. reflexivity. Qed.
Example read_file_escapes_base_ex :
  fst (callTool demo_base arg_type_message 1
         {| ct_name := "read-file";
            ct_arguments := Some [("path", JS.Str "../../etc/passwd")] |}
         (boot demo_fs))
  = Returned [text_content "root:x:0:0"].
Proof. reflexivity. Qed.
Example read_file_not_a_string_ex :
  fst (callTool demo_base arg_type_message 1
         {| ct_name := "read-file"; ct_arguments := Some [("path", JS.Bool true)] |}
         (boot demo_fs))
  = Thrown (mkError "Failed to read file: The path argument must be of type string.").
Proof. reflexivity. Qed.

(** ** Splitting and joining at slashes *)

Section PathFacts.

Lemma is_empty_true (s : string) : Str.is_empty s = true <-> s = "".
Proof. destruct s; simpl; split; congruence. Qed.

Lemma is_empty_app (a b : string) :
  Str.is_empty (a ++ b) = Str.is_empty a && Str.is_empty b.
Proof. destruct a; reflexivity. Qed.

Lemma split_not_nil (sep : ascii) (s : string) : Str.split sep s <> [].
Proof.
  destruct s as [|c s]; simpl; [discriminate|].
  destruct (Ascii.eqb c sep); [discriminate|].
  destruct (Str.split sep s); discriminate.
Qed.

Lemma split_app_sep (sep : ascii) (a b : string) :
  Str.split sep (a ++ String sep b) = (Str.split sep a ++ Str.split sep b)%list.
Proof.
  induction a as [|c a IH].
  - change ("" ++ String sep b) with (String sep b).
    cbn [Str.split app]. now rewrite Ascii.eqb_refl.
  - change (String c a ++ String sep b) with (String c (a ++ String sep b)).
    cbn [Str.split]. destruct (Ascii.eqb c sep).
    + now rewrite IH.
    + rewrite IH. pose proof (split_not_nil sep a) as Hne.
      destruct (Str.split sep a); [congruence | reflexivity].
Qed.

Lemma split_free (sep : ascii) (s : string) :
  Str.free_of sep s = true -> Str.split sep s = [s].
Proof.
  induction s as [|c s IH]; simpl; [reflexivity|].
  intros H. apply andb_true_iff in H as [Hc Hs].
  apply negb_true_iff in Hc. rewrite Hc, (IH Hs). reflexivity.
Qed.

Lemma ends_with_char_app (c : ascii) (a b : string) :
  b <> "" -> Str.ends_with_char c (a ++ b) = Str.ends_with_char c b.
Proof.
  intros Hb. induction a as [|d a IH]; [reflexivity|].
  change (String d a ++ b) with (String d (a ++ b)).
  simpl. rewrite IH. destruct (a ++ b) eqn:E; [|reflexivity].
  destruct a; simpl in E; [congruence | discriminate].
Qed.

Lemma ends_with_char_free (c : ascii) (s : string) :
  Str.free_of c s = true -> Str.ends_with_char c s = false.
Proof.
  induction s as [|d s IH]; [reflexivity|].
  simpl. intros H. apply andb_true_iff in H as [Hd Hs].
  apply negb_true_iff in Hd. destruct s; [exact Hd | exact (IH Hs)].
Qed.

Lemma wf_name_inv (s : string) :
  wf_name s = true ->
  s <> "" /\ Str.free_of Path.slash s = true /\ s <> "." /\ s <> "..".
Proof.
  unfold wf_name. intros H.
  repeat (apply andb_true_iff in H as [H ?]).
  repeat match goal with
         | h : negb _ = true |- _ => apply negb_true_iff in h
         end.
  repeat split; trivial.
  - intros ->. discriminate.
  - now apply String.eqb_neq.
  - now apply String.eqb_neq.
Qed.

Lemma good_app (a b : list string) : good a -> good b -> good (a ++ b).
Proof. intros; apply Forall_app; now split. Qed.

Lemma good_free (r : list string) :
  good r -> Forall (fun s => Str.free_of Path.slash s = true) r.
Proof.
  intros H. eapply Forall_impl; [|exact H].
  intros s Hs. now apply wf_name_inv in Hs.
Qed.

Lemma split_concat (segs : list string) :
  segs <> [] ->
  Forall (fun s => Str.free_of Path.slash s = true) segs ->
  Str.split Path.slash (String.concat "/" segs) = segs.
Proof.
  induction segs as [|x [|y l] IH]; intros Hne Hfree.
  - congruence.
  - simpl. inversion Hfree; subst. now apply split_free.
  - change (String.concat "/" (x :: y :: l))
      with (x ++ String Path.slash (String.concat "/" (y :: l))).
    rewrite split_app_sep. inversion Hfree; subst.
    rewrite (split_free _ _ H1), IH; [reflexivity | discriminate | assumption].
Qed.

Lemma normalize_segments_good (allow : bool) (segs acc : list string) :
  good segs ->
  Path.normalize_segments allow acc segs = (rev acc ++ segs)%list.
Proof.
  revert acc. induction segs as [|s segs IH]; intros acc H; simpl.
  - now rewrite app_nil_r.
  - inversion H as [|? ? Hs Hrest]; subst.
    apply wf_name_inv in Hs as (He & _ & Hd & Hdd).
    apply String.eqb_neq in He, Hd, Hdd. rewrite He, Hd, Hdd. simpl.
    rewrite (IH _ Hrest). simpl. now rewrite <- app_assoc.
Qed.

Lemma split_abs_path (segs : list string) :
  good segs ->
  Path.normalize_segments false [] (Str.split Path.slash (abs_path segs)) = segs.
Proof.
  intros H. unfold abs_path.
  change ("/" ++ String.concat "/" segs)
    with (String Path.slash (String.concat "/" segs)).
  cbn [Str.split]. rewrite Ascii.eqb_refl.
  destruct segs as [|x l].
  - reflexivity.
  - rewrite split_concat; [|discriminate | now apply good_free].
    change (Path.normalize_segments false [] ("" :: x :: l))
      with (Path.normalize_segments false [] (x :: l)).
    now rewrite normalize_segments_good.
Qed.

(** An absolute path is determined by its segments, and the other way
    round. *)
Lemma abs_path_inj (a b : list string) :
  good a -> good b -> abs_path a = abs_path b -> a = b.
Proof.
  intros Ha Hb E.
  rewrite <- (split_abs_path Ha), <- (split_abs_path Hb). now rewrite E.
Qed.

Lemma concat_good_not_empty (r : list string) :
  good r -> r <> [] -> Str.is_empty (String.concat "/" r) = false.
Proof.
  intros H Hne. destruct r as [|x [|y l]]; [congruence| |].
  - inversion H; subst. apply wf_name_inv in H2 as (He & _).
    destruct x; [congruence | reflexivity].
  - inversion H; subst. apply wf_name_inv in H2 as (He & _).
    destruct x; [congruence | reflexivity].
Qed.

Lemma rel_path_inj (a b : list string) :
  good a -> good b -> rel_path a = rel_path b -> a = b.
Proof.
  unfold rel_path. intros Ha Hb E.
  destruct a as [|x a], b as [|y b]; trivial.
  - pose proof (concat_good_not_empty Hb ltac:(discriminate)) as N.
    rewrite <- E in N. discriminate.
  - pose proof (concat_good_not_empty Ha ltac:(discriminate)) as N.
    rewrite E in N. discriminate.
  - rewrite <- (split_concat (segs := x :: a)), <- (split_concat (segs := y :: b));
      try discriminate; try (now apply good_free).
    now rewrite E.
Qed.

Lemma ends_with_slash_concat (r : list string) :
  good r -> Str.ends_with_char Path.slash (String.concat "/" r) = false.
Proof.
  induction r as [|x [|y l] IH]; intros H.
  - reflexivity.
  - simpl. inversion H; subst. apply wf_name_inv in H2 as (_ & Hf & _).
    now apply ends_with_char_free.
  - change (String.concat "/" (x :: y :: l))
      with (x ++ String Path.slash (String.concat "/" (y :: l))).
    inversion H; subst.
    rewrite ends_with_char_app by discriminate.
    pose proof (concat_good_not_empty H3 ltac:(discriminate)) as N.
    pose proof (IH H3) as E.
    destruct (String.concat "/" (y :: l)) eqn:C; [discriminate|].
    exact E.
Qed.

End PathFacts.

(** ** [join] and [relative] on the paths of a tree *)

Section JoinRelative.

Lemma normalize_segments_app (allow : bool) (a b acc : list string) :
  Path.normalize_segments allow acc (a ++ b) =
  Path.normalize_segments allow (rev (Path.normalize_segments allow acc a)) b.
Proof.
  revert acc. induction a as [|s a IH]; intros acc.
  - simpl. now rewrite rev_involutive.
  - cbn [Path.normalize_segments app].
    destruct ((s =? "") || (s =? "."))%bool; [apply IH|].
    destruct (s =? ".."); [|apply IH].
    destruct acc as [|last acc']; [apply IH|].
    destruct (last =? ".."); apply IH.
Qed.

Lemma abs_path_not_empty (segs : list string) : Str.is_empty (abs_path segs) = false.
Proof. reflexivity. Qed.

Lemma abs_path_absolute (segs : list string) : Path.isAbsolute (abs_path segs) = true.
Proof. reflexivity. Qed.

(** Joining a directory of the tree with a relative path of proper names
    appends the names. *)
Lemma join_abs_rel (segs r : list string) :
  good segs -> good r -> r <> [] ->
  Path.join (abs_path segs) (rel_path r) = abs_path (segs ++ r).
Proof.
  intros Hs Hr Hne. unfold Path.join.
  rewrite abs_path_not_empty.
  unfold rel_path. rewrite (concat_good_not_empty Hr Hne).
  set (joined := abs_path segs ++ "/" ++ String.concat "/" r).
  assert (Hj : Str.is_empty joined = false) by reflexivity.
  rewrite Hj. unfold Path.normalize. rewrite Hj.
  assert (Habs : Path.isAbsolute joined = true) by reflexivity.
  rewrite Habs.
  assert (Hsplit : Path.normalize_segments false []
                     (Str.split Path.slash joined) = (segs ++ r)%list).
  { unfold joined.
    change ("/" ++ String.concat "/" r)
      with (String Path.slash (String.concat "/" r)).
    rewrite split_app_sep, normalize_segments_app, (split_abs_path Hs).
    rewrite split_concat by (trivial; now apply good_free).
    rewrite normalize_segments_good by assumption.
    now rewrite rev_involutive. }
  assert (Htrail : Str.ends_with_char Path.slash joined = false).
  { unfold joined. rewrite ends_with_char_app by discriminate.
    pose proof (ends_with_slash_concat Hr) as E.
    pose proof (concat_good_not_empty Hr Hne) as N.
    change ("/" ++ String.concat "/" r)
      with (String Path.slash (String.concat "/" r)).
    destruct (String.concat "/" r); [discriminate | exact E]. }
  rewrite Htrail. unfold Path.normalizeString. cbn [negb]. rewrite Hsplit.
  rewrite concat_good_not_empty.
  - reflexivity.
  - now apply good_app.
  - destruct segs; [assumption | discriminate].
Qed.

Lemma join_abs (segs : list string) (name : string) :
  good segs -> wf_name name = true ->
  Path.join (abs_path segs) name = abs_path (segs ++ [name]).
Proof.
  intros Hs Hn.
  apply (@join_abs_rel segs [name]); trivial; [|discriminate].
  now constructor.
Qed.

Lemma resolve_segments_abs (cwd : string) (segs : list string) :
  good segs -> Path.resolve_segments cwd (abs_path segs) = segs.
Proof.
  intros H. unfold Path.resolve_segments.
  rewrite abs_path_absolute. now apply split_abs_path.
Qed.

Lemma strip_common_app (a r : list string) :
  Path.strip_common a (a ++ r) = ([], r).
Proof.
  induction a as [|x a IH]; simpl.
  - now destruct r.
  - now rewrite String.eqb_refl.
Qed.

(** The path of an entry below a directory, relative to that directory, is
    made of the names passed on the way down. *)
Lemma relative_abs (cwd : string) (segs r : list string) :
  good segs -> good r ->
  Path.relative cwd (abs_path segs) (abs_path (segs ++ r)) = rel_path r.
Proof.
  intros Hs Hr. unfold Path.relative.
  destruct (abs_path segs =? abs_path (segs ++ r)) eqn:E.
  - apply String.eqb_eq, abs_path_inj in E; trivial; [|now apply good_app].
    rewrite <- (app_nil_r segs) in E at 1. apply app_inv_head in E.
    now subst r.
  - unfold Path.resolve.
    rewrite !resolve_segments_abs by (trivial; now apply good_app).
    fold (abs_path segs). fold (abs_path (segs ++ r)). rewrite E.
    now rewrite strip_common_app.
Qed.

End JoinRelative.

(** ** The walker on a tree *)

Section Monad.

Context {A B : Type}.

Lemma bind_returned (m : io A) (k : A -> io B) (w w' : World) (a : A) :
  m w = (Returned a, w') -> bind m k w = k a w'.
Proof. unfold bind. now intros ->. Qed.

Lemma bind_thrown (m : io A) (k : A -> io B) (w w' : World) (e : Error) :
  m w = (Thrown e, w') -> bind m k w = (Thrown e, w').
Proof. unfold bind. now intros ->. Qed.

Lemma bind_pending (m : io A) (k : A -> io B) (w w' : World) :
  m w = (Pending, w') -> bind m k w = (Pending, w').
Proof. unfold bind. now intros ->. Qed.

End Monad.

Lemma readdir_withFileTypes_ok (dir : string) (w : World) (items : list Dirent.t) :
  entries_at (disk w) dir = inr items ->
  readdir_withFileTypes dir w
  = (Returned items,
     {| disk := disk w; stderr := stderr w;
        syscalls := (syscalls w ++ [SysReaddir dir])%list |}).
Proof.
  intros E. unfold readdir_withFileTypes, bind, log_call. simpl.
  now rewrite E.
Qed.

Lemma readdir_withFileTypes_fails (dir : string) (w : World) (e : Error) :
  entries_at (disk w) dir = inl e ->
  readdir_withFileTypes dir w
  = (Thrown e,
     {| disk := disk w; stderr := stderr w;
        syscalls := (syscalls w ++ [SysReaddir dir])%list |}).
Proof.
  intros E. unfold readdir_withFileTypes, bind, log_call. simpl.
  now rewrite E.
Qed.

Section Walker.

Variable fs : FileSystem.
Variable base : list string.
Hypothesis Hbase : good base.

Local Abbreviation BASE := (abs_path base).
Local Abbreviation walk := (listFilesRecursively BASE).
Local Abbreviation body fuel dirpath :=
  (fun (files : list string) (item : Dirent.t) =>
     let fullPath := join dirpath (Dirent.name item) in
     if Dirent.isDirectory item
     then bind (walk fuel fullPath) (fun sub => ret (files ++ sub)%list)
     else ret (files ++ [relative BASE BASE fullPath])%list).

Lemma walk_step (fuel : nat) (dirpath : string) :
  walk (S fuel) dirpath
  = bind (readdir_withFileTypes dirpath)
      (fun items => for_of items (body fuel dirpath) []).
Proof. reflexivity. Qed.

Lemma proper_cons_map (n : string) (R : list (list string)) :
  wf_name n = true -> proper R -> proper (map (cons n) R).
Proof.
  intros Hn [Hnd Hall]. split.
  - apply Injective_map_NoDup; [|assumption].
    intros a b E. now inversion E.
  - apply Forall_forall. intros r Hr. apply in_map_iff in Hr as (r' & <- & Hr').
    rewrite Forall_forall in Hall. destruct (Hall _ Hr') as [Hg _].
    split; [now constructor | discriminate].
Qed.

Lemma walk_returns_mono (dir : list string) (n m : nat) (R : list (list string)) :
  n <= m -> walk_returns fs base dir n R -> walk_returns fs base dir m R.
Proof. intros Hnm H fuel w Hf Hw. apply H; [lia | assumption]. Qed.

(** The loop over the entries of one directory. *)
Lemma loop_returns (dir : list string) (its : list Dirent.t) :
  good dir ->
  Forall (fun it => wf_name (Dirent.name it) = true) its ->
  NoDup (map Dirent.name its) ->
  (forall d, In d its -> Dirent.isDirectory d = true ->
     exists n R, walk_returns fs base (dir ++ [Dirent.name d]) n R /\ proper R /\
                 (forall r, In r R <-> leaf fs ((base ++ dir) ++ [Dirent.name d]) r)) ->
  exists n R,
    (forall fuel w acc, n <= fuel -> disk w = fs ->
       exists w',
         for_of its (body fuel (abs_path (base ++ dir))) acc w
         = (Returned (acc ++ map (fun r => rel_path (dir ++ r)) R)%list, w')
         /\ disk w' = fs)
    /\ proper R
    /\ (forall r, In r R <-> via fs (base ++ dir) its r).
Proof.
  intros Hdir. induction its as [|x rest IH]; intros Hwf Hnd Hsub.
  - exists 0, []. split; [|split].
    + intros fuel w acc _ Hw. exists w. simpl. unfold ret.
      now rewrite app_nil_r.
    + split; constructor.
    + intros r. split; [intros [] |].
      intros [(it & [] & _) | (d & r' & [] & _)].
  - inversion Hwf as [|? ? Hx Hwf']; subst.
    inversion Hnd as [|? ? Hnotin Hnd']; subst.
    destruct IH as (n2 & R2 & Hrun2 & Hprop2 & Hin2); trivial.
    { intros d Hd. apply Hsub. now right. }
    assert (Hfull : join (abs_path (base ++ dir)) (Dirent.name x)
                    = abs_path (base ++ (dir ++ [Dirent.name x]))).
    { unfold join. rewrite join_abs; trivial; [now rewrite app_assoc|].
      now apply good_app. }
    assert (Hheads : forall r, In r R2 -> exists h t, r = h :: t /\ In h (map Dirent.name rest)).
    { intros r Hr. apply Hin2 in Hr as [(it & Hit & _ & ->) | (d & r' & Hd & _ & -> & _)];
        eexists _, _; (split; [reflexivity|]); now apply in_map. }
    destruct (Dirent.isDirectory x) eqn:Ex.
    + destruct (Hsub x (or_introl eq_refl) Ex) as (n1 & R1 & Hrun1 & Hprop1 & Hin1).
      exists (Nat.max n1 n2), (map (cons (Dirent.name x)) R1 ++ R2)%list.
      split; [|split].
      * intros fuel w acc Hf Hw.
        destruct (Hrun1 fuel w ltac:(lia) Hw) as (w1 & E1 & Hw1).
        destruct (Hrun2 fuel w1
                    (acc ++ map (fun r => rel_path ((dir ++ [Dirent.name x]) ++ r)) R1)%list
                    ltac:(lia) Hw1) as (w2 & E2 & Hw2).
        exists w2. split; [|assumption].
        cbn [for_of]. erewrite bind_returned.
        2:{ cbv beta zeta. rewrite Ex, Hfull. erewrite bind_returned by exact E1.
            reflexivity. }
        etransitivity; [exact E2|]. f_equal. f_equal.
        rewrite map_app, map_map, app_assoc. f_equal. f_equal.
        apply map_ext. intros r. now rewrite <- app_assoc.
      * destruct Hprop1 as [Hnd1 Hall1], Hprop2 as [Hnd2 Hall2].
        destruct (@proper_cons_map (Dirent.name x) R1 Hx (conj Hnd1 Hall1)) as [Hnd1' Hall1'].
        split; [|now apply Forall_app].
        apply NoDup_app; trivial.
        intros r Hr1 Hr2. apply in_map_iff in Hr1 as (r' & <- & _).
        apply Hheads in Hr2 as (h & t & E & Hh). inversion E; subst. contradiction.
      * intros r. rewrite in_app_iff, in_map_iff. unfold via. split.
        -- intros [(r' & <- & Hr') | Hr].
           ++ right. exists x, r'. repeat split; trivial; [now left | now apply Hin1].
           ++ apply Hin2 in Hr as [(it & Hit & Hf & ->) | (d & r' & Hd & Hdd & -> & Hl)].
              ** left. exists it. repeat split; trivial. now right.
              ** right. exists d, r'. repeat split; trivial. now right.
        -- intros [(it & [<- | Hit] & Hf & ->) | (d & r' & [<- | Hd] & Hdd & -> & Hl)].
           ++ congruence.
           ++ right. apply Hin2. left. now exists it.
           ++ left. exists r'. split; trivial. now apply Hin1.
           ++ right. apply Hin2. right. now exists d, r'.
    + exists n2, ([Dirent.name x] :: R2).
      split; [|split].
      * intros fuel w acc Hf Hw.
        destruct (Hrun2 fuel w (acc ++ [rel_path (dir ++ [Dirent.name x])])%list
                    Hf Hw) as (w2 & E2 & Hw2).
        exists w2. split; [|assumption].
        cbn [for_of]. erewrite bind_returned.
        2:{ cbv beta zeta. rewrite Ex, Hfull. unfold relative.
            rewrite relative_abs; trivial; [reflexivity|].
            apply good_app; trivial. now constructor. }
        etransitivity; [exact E2|]. f_equal. f_equal. cbn [map].
        now rewrite <- app_assoc.
      * destruct Hprop2 as [Hnd2 Hall2]. split.
        -- constructor; trivial. intros Hr.
           apply Hheads in Hr as (h & t & E & Hh). inversion E; subst. contradiction.
        -- constructor; trivial. split; [now constructor | discriminate].
      * intros r. unfold via. cbn [In]. split.
        -- intros [<- | Hr].
           ++ left. exists x. repeat split; trivial. now left.
           ++ apply Hin2 in Hr as [(it & Hit & Hf & ->) | (d & r' & Hd & Hdd & -> & Hl)].
              ** left. exists it. repeat split; trivial. now right.
              ** right. exists d, r'. repeat split; trivial. now right.
        -- intros [(it & [<- | Hit] & Hf & ->) | (d & r' & [<- | Hd] & Hdd & -> & Hl)].
           ++ now left.
           ++ right. apply Hin2. left. now exists it.
           ++ congruence.
           ++ right. apply Hin2. right. now exists d, r'.
Qed.

Lemma reaches_not_nil (dir r : list string) (it : Dirent.t) :
  reaches fs dir r it -> r <> [].
Proof. intros H. destruct H; discriminate. Qed.

Lemma via_leaf (full : list string) (items : list Dirent.t) (r : list string) :
  entries_at fs (abs_path full) = inr items ->
  via fs full items r <-> leaf fs full r.
Proof.
  intros E. unfold via, leaf. split.
  - intros [(it & Hit & Hf & ->) | (d & r' & Hd & Hdd & -> & it & Hreach & Hf)].
    + exists it. split; trivial. apply reaches_entry. now exists items.
    + exists it. split; trivial. apply reaches_below; trivial. now exists items.
  - intros (it & Hreach & Hf). inversion Hreach as [? ? Hl | ? d r' ? Hl Hdd Hr]; subst.
    + destruct Hl as (items' & E' & Hin). rewrite E in E'. inversion E'; subst.
      left. now exists it.
    + destruct Hl as (items' & E' & Hin). rewrite E in E'. inversion E'; subst.
      right. exists d, r'. repeat split; trivial. now exists it.
Qed.

(** On a tree the walk returns, with enough fuel, the paths of the entries
    that are not directories, each once. *)
Lemma walk_tree (full : list string) :
  tree fs full ->
  forall dir, good dir -> full = (base ++ dir)%list ->
  exists n R, walk_returns fs base dir n R /\ proper R /\
              (forall r, In r R <-> leaf fs (base ++ dir) r).
Proof.
  induction 1 as [full items E Hnd Hwf Hsub IH]. intros dir Hdir ->.
  destruct (@loop_returns dir items Hdir Hwf Hnd) as (n & R & Hrun & Hprop & Hin).
  { intros d Hd Hdd.
    destruct (IH d Hd Hdd (dir ++ [Dirent.name d])%list) as (n & R & H1 & H2 & H3).
    - apply good_app; trivial. constructor; [|constructor].
      rewrite Forall_forall in Hwf. now apply Hwf.
    - now rewrite app_assoc.
    - exists n, R. split; [exact H1|]. split; [exact H2|].
      intros r. rewrite <- app_assoc. apply H3. }
  exists (S n), R. split; [|split]; trivial.
  - intros fuel w Hf Hw. destruct fuel as [|fuel]; [lia|].
    rewrite walk_step.
    erewrite bind_returned
      by (apply readdir_withFileTypes_ok; rewrite Hw; exact E).
    match goal with
    | |- context [for_of _ _ _ ?w1] =>
        destruct (Hrun fuel w1 [] ltac:(lia) Hw) as (w' & E' & Hw')
    end.
    exists w'. split; [|assumption]. exact E'.
  - intros r. rewrite Hin. now apply via_leaf.
Qed.

(** Two entries of a directory of a tree with one name are one entry. *)
Lemma same_name_same_entry (items : list Dirent.t) (a b : Dirent.t) :
  NoDup (map Dirent.name items) ->
  In a items -> In b items -> Dirent.name a = Dirent.name b -> a = b.
Proof.
  induction items as [|x l IH]; intros Hnd Ha Hb E; [contradiction|].
  inversion Hnd as [|? ? Hnotin Hnd']; subst.
  destruct Ha as [<- | Ha], Hb as [<- | Hb]; trivial.
  - exfalso. apply Hnotin. rewrite E. now apply in_map.
  - exfalso. apply Hnotin. rewrite <- E. now apply in_map.
  - now apply IH.
Qed.

(** In a tree a path leads to one entry at most. *)
Lemma reaches_functional (full r : list string) (a b : Dirent.t) :
  tree fs full -> reaches fs full r a -> reaches fs full r b -> a = b.
Proof.
  intros Ht Ha. revert b Ht.
  induction Ha as [full a Hl | full d r a Hl Hdd Hr IH]; intros b Ht Hb.
  - inversion Hb as [? ? Hl' | ? d' r' ? Hl' Hdd' Hr']; subst.
    + inversion Ht as [? items E Hnd _ _]; subst.
      destruct Hl as (i1 & E1 & H1), Hl' as (i2 & E2 & H2).
      rewrite E in E1, E2. inversion E1; inversion E2; subst.
      symmetry. now apply (@same_name_same_entry i2 b a Hnd).
    + now apply reaches_not_nil in Hr'.
  - inversion Hb as [? ? Hl' Hn | ? d' r' ? Hl' Hdd' Hr' Hn]; subst.
    + now apply reaches_not_nil in Hr.
    + inversion Ht as [? items E Hnd _ Hsub]; subst.
      destruct Hl as (i1 & E1 & H1), Hl' as (i2 & E2 & H2).
      rewrite E in E1, E2. inversion E1; inversion E2; subst.
      assert (d' = d) by now apply (@same_name_same_entry i2 d' d Hnd).
      subst d'. apply IH; trivial. now apply Hsub.
Qed.

Lemma reaches_good (full r : list string) (it : Dirent.t) :
  tree fs full -> reaches fs full r it -> good r.
Proof.
  intros Ht Hr. revert Ht.
  induction Hr as [full it Hl | full d r it Hl Hdd Hr IH]; intros Ht;
    inversion Ht as [? items E Hnd Hwf Hsub]; subst;
    destruct Hl as (items' & E' & Hin); rewrite E in E'; inversion E'; subst;
    rewrite Forall_forall in Hwf.
  - constructor; [now apply Hwf | constructor].
  - constructor; [now apply Hwf |]. apply IH. now apply Hsub.
Qed.

End Walker.

(** ** The walker lists the entries that are not directories *)

(** C1, as amended: for every directory tree rooted at the base directory,
    all of whose directories can be read, the recursive walker returns
    exactly the entries reachable from the base directory that are not
    directories (regular files, and with them symbolic links, FIFOs,
    sockets and devices), each exactly once, as paths relative to the base
    directory, and never includes a directory in its output. *)
Theorem walker_lists_non_directories (fs : FileSystem) (base : list string) :
  good base -> tree fs base ->
  exists files,
    walker_returns (abs_path base) fs files
    /\ lists_exactly not_directory fs base files.
Proof.
  intros Hbase Ht.
  destruct (@walk_tree fs base Hbase base Ht [] (Forall_nil _) (eq_sym (app_nil_r base)))
    as (n & R & Hrun & [Hnd Hall] & Hin).
  rewrite Forall_forall in Hall.
  exists (map rel_path R). split; [|split; [|split]].
  - exists n. intros fuel w Hf Hw.
    destruct (Hrun fuel w Hf Hw) as (w' & E & _).
    rewrite app_nil_r in E. now rewrite E.
  - apply Injective_map_NoDup_in; trivial.
    intros a b Ha Hb. apply rel_path_inj; now apply Hall.
  - intros p. rewrite in_map_iff. split.
    + intros (r & <- & Hr). apply Hin in Hr as (it & Hreach & Hf).
      rewrite app_nil_r in Hreach.
      exists r, it. unfold not_directory. rewrite Hf. now repeat split.
    + intros (r & it & Hreach & Hk & ->). exists r. split; trivial.
      apply Hin. exists it. rewrite app_nil_r. split; trivial.
      unfold not_directory in Hk. now apply negb_true_iff in Hk.
  - intros r it Hreach Hdd Hp. apply in_map_iff in Hp as (r' & E & Hr').
    assert (r' = r).
    { apply rel_path_inj; trivial; [now apply Hall|].
      now apply (@reaches_good fs base r it). }
    subst r'. apply Hin in Hr' as (it' & Hreach' & Hf).
    rewrite app_nil_r in Hreach'.
    assert (it' = it) by now apply (@reaches_functional fs base r it' it).
    congruence.
Qed.

Ltac read_listing H :=
  let items := fresh "items" in
  let E := fresh "E" in
  let Hin := fresh "Hin" in
  destruct H as (items & E & Hin);
  vm_compute in E; inversion E; subst items; clear E;
  simpl in Hin.

Ltac tree_of_listing :=
  eapply tree_dir;
  [ vm_compute; reflexivity
  | simpl; repeat constructor; simpl; intuition discriminate
  | repeat constructor
  | simpl ].

(** The entries of a listing that are directories, one after the other. *)
Ltac each_directory :=
  let d := fresh "d" in
  let Hd := fresh "Hd" in
  let Hdir := fresh "Hdir" in
  intros d Hd Hdir;
  repeat (destruct Hd as [<- | Hd]; [try discriminate Hdir | ]);
  try contradiction.

Lemma demo_tree : tree demo_fs demo_segments.
Proof.
  tree_of_listing. each_directory; tree_of_listing; each_directory.
Qed.

Lemma link_tree : tree link_fs demo_segments.
Proof. tree_of_listing. each_directory. Qed.

Lemma demo_segments_good : good demo_segments.
Proof. repeat constructor. Qed.

Lemma walker_lists_non_directories_witness :
  good demo_segments /\ tree demo_fs demo_segments /\
  exists files,
    walker_returns (abs_path demo_segments) demo_fs files
    /\ lists_exactly not_directory demo_fs demo_segments files.
Proof.
  split; [exact demo_segments_good|]. split; [exact demo_tree|].
  apply (@walker_lists_non_directories demo_fs demo_segments).
  - exact demo_segments_good.
  - exact demo_tree.
Defined.

(** C1 as the specification states it fails where a directory holds a
    symbolic link: the walker lists the link, which is no regular file. *)
Lemma walker_lists_regular_files_fails :
  tree link_fs demo_segments /\
  ~ (exists files,
       walker_returns (abs_path demo_segments) link_fs files
       /\ lists_exactly Dirent.isFile link_fs demo_segments files).
Proof.
  split; [exact link_tree|].
  intros (files & (n & Hrun) & _ & Hiff & _).
  specialize (Hrun (S n) (boot link_fs) (Nat.le_succ_diag_r n) eq_refl).
  vm_compute in Hrun. inversion Hrun; subst files; clear Hrun.
  destruct (proj1 (Hiff "current")) as (r & it & Hreach & Hfile & Hp).
  { right. now left. }
  inversion Hreach as [? ? Hl | ? d r' ? Hl Hdd Hr]; subst.
  - read_listing Hl. destruct Hin as [<- | [<- | []]]; discriminate.
  - read_listing Hl. destruct Hin as [<- | [<- | []]]; discriminate.
Qed.

(** ** A failed read ends the walk *)

Section Traced.

Lemma traced_ret (A : Type) (a : A) : traced (ret a).
Proof.
  intros w. simpl. repeat split. exists []. split; [now rewrite app_nil_r | constructor].
Qed.

Lemma traced_pending (A : Type) : traced (@pending A).
Proof.
  intros w. simpl. repeat split. exists []. split; [now rewrite app_nil_r | constructor].
Qed.

Lemma traced_bind (A B : Type) (m : io A) (k : A -> io B) :
  traced m -> (forall a, traced (k a)) -> traced (bind m k).
Proof.
  intros Hm Hk w. unfold bind.
  destruct (Hm w) as (Hd & Hs & calls & Hc & Hlog).
  destruct (m w) as [[a | e |] w1]; simpl in *.
  - destruct (Hk a w1) as (Hd' & Hs' & calls' & Hc' & Hlog').
    split; [congruence|]. split; [congruence|].
    exists (calls ++ calls')%list. split.
    + rewrite Hc', Hc. now rewrite app_assoc.
    + rewrite Hd in Hlog'. destruct (fst (k a w1)); simpl in *.
      * now apply Forall_app.
      * destruct Hlog' as (pre & p & -> & E & Hpre).
        exists (calls ++ pre)%list, p. rewrite app_assoc.
        repeat split; trivial. now apply Forall_app.
      * now apply Forall_app.
  - repeat split; trivial. now exists calls.
  - repeat split; trivial. now exists calls.
Qed.

Lemma traced_readdir_withFileTypes (dir : string) : traced (readdir_withFileTypes dir).
Proof.
  intros w. unfold readdir_withFileTypes, bind, log_call, of_result. simpl.
  destruct (entries_at (disk w) dir) as [e | items] eqn:E; simpl;
    repeat split; exists [SysReaddir dir]; (split; [reflexivity|]).
  - exists [], dir. repeat split; trivial.
  - constructor; [|constructor]. now exists items.
Qed.

Lemma traced_for_of (A S : Type) (items : list A) (body : S -> A -> io S) (s : S) :
  (forall s item, In item items -> traced (body s item)) ->
  traced (for_of items body s).
Proof.
  revert s. induction items as [|x l IH]; intros s H; simpl.
  - apply traced_ret.
  - apply traced_bind; [apply H; now left|].
    intros s'. apply IH. intros s0 item Hin. apply H. now right.
Qed.

Lemma traced_walk (BASE_DIR : string) (fuel : nat) (dir : string) :
  traced (listFilesRecursively BASE_DIR fuel dir).
Proof.
  revert dir. induction fuel as [|fuel IH]; intros dir.
  - apply traced_pending.
  - cbn [listFilesRecursively]. apply traced_bind.
    + apply traced_readdir_withFileTypes.
    + intros items. apply traced_for_of. intros files item _.
      cbv zeta. destruct (Dirent.isDirectory item).
      * apply traced_bind; [apply IH|]. intros sub. apply traced_ret.
      * apply traced_ret.
Qed.

End Traced.

(** On a finite tree, readable or not, the walk ends when its fuel is
    enough: it returns or it throws. *)
Lemma walk_finishes (BASE_DIR : string) (fs : FileSystem) (dir : string) :
  finite_tree fs dir ->
  exists n, forall fuel w, n <= fuel -> disk w = fs ->
    fst (listFilesRecursively BASE_DIR fuel dir w) <> Pending.
Proof.
  induction 1 as [dir e E | dir items E Hsub IH].
  - exists 1. intros fuel w Hf Hw. destruct fuel as [|fuel]; [lia|].
    cbn [listFilesRecursively].
    erewrite bind_thrown
      by (apply readdir_withFileTypes_fails; rewrite Hw; exact E).
    discriminate.
  - assert (Hloop : exists n, forall fuel w acc, n <= fuel -> disk w = fs ->
              fst (for_of items
                     (fun files item =>
                        let fullPath := Path.join dir (Dirent.name item) in
                        if Dirent.isDirectory item
                        then bind (listFilesRecursively BASE_DIR fuel fullPath)
                               (fun sub => ret (files ++ sub)%list)
                        else ret (files ++ [Path.relative BASE_DIR BASE_DIR fullPath])%list)
                     acc w) <> Pending).
    { clear E Hsub. induction items as [|x rest IHrest].
      - exists 0. intros fuel w acc _ _. discriminate.
      - destruct IHrest as (n2 & Hrest).
        { intros d Hd. apply IH. now right. }
        destruct (Dirent.isDirectory x) eqn:Ex.
        + destruct (IH x (or_introl eq_refl) Ex) as (n1 & Hx).
          exists (Nat.max n1 n2). intros fuel w acc Hf Hw.
          cbn [for_of]. cbv zeta. rewrite Ex. unfold bind at 1 2.
          specialize (Hx fuel w ltac:(lia) Hw).
          destruct (traced_walk BASE_DIR fuel
                      (Path.join dir (Dirent.name x)) w) as (Hd & _).
          destruct (listFilesRecursively BASE_DIR fuel
                      (Path.join dir (Dirent.name x)) w) as [[sub | e |] w1];
            simpl in *; try discriminate; try congruence.
          apply Hrest; [lia | congruence].
        + exists n2. intros fuel w acc Hf Hw.
          cbn [for_of]. cbv zeta. rewrite Ex. unfold bind at 1, ret at 1.
          now apply Hrest. }
    destruct Hloop as (n & Hloop). exists (S n).
    intros fuel w Hf Hw. destruct fuel as [|fuel]; [lia|].
    cbn [listFilesRecursively].
    erewrite bind_returned
      by (apply readdir_withFileTypes_ok; rewrite Hw; exact E).
    apply Hloop; [lia | exact Hw].
Qed.

(** C8: when a directory read fails during a recursive walk, the walk
    throws the error of that read as it is, returns no list, and makes no
    further call: the failed read is the last call of the walk, and every
    call before it succeeded. *)
Theorem walk_aborts_on_failed_read (BASE_DIR : string) (fuel : nat)
        (dir : string) (w : World) (calls : list Syscall) (p : string) (e : Error) :
  syscalls (snd (listFilesRecursively BASE_DIR fuel dir w))
  = (syscalls w ++ calls)%list ->
  In (SysReaddir p) calls ->
  entries_at (disk w) p = inl e ->
  fst (listFilesRecursively BASE_DIR fuel dir w) = Thrown e
  /\ exists pre, calls = (pre ++ [SysReaddir p])%list
                 /\ Forall (call_succeeds (disk w)) pre.
Proof.
  intros Hcalls Hin Hfail.
  destruct (traced_walk BASE_DIR fuel dir w) as (_ & _ & calls' & Hc & Hlog).
  rewrite Hc in Hcalls. apply app_inv_head in Hcalls. subst calls'.
  assert (Hbad : ~ call_succeeds (disk w) (SysReaddir p)).
  { intros (items & E). simpl in E. congruence. }
  destruct (fst (listFilesRecursively BASE_DIR fuel dir w)) as [files | e' |];
    simpl in Hlog.
  - rewrite Forall_forall in Hlog. now apply Hlog in Hin.
  - destruct Hlog as (pre & p' & -> & E & Hpre).
    apply in_app_iff in Hin as [Hin | [Hin | []]].
    + rewrite Forall_forall in Hpre. now apply Hpre in Hin.
    + inversion Hin; subst p'. split; [congruence|]. now exists pre.
  - rewrite Forall_forall in Hlog. now apply Hlog in Hin.
Qed.

Lemma walk_aborts_on_failed_read_witness :
  fst (listFilesRecursively demo_base 3 demo_base (boot locked_fs))
  = Thrown (EACCES "scandir" "/srv/app/secret")
  /\ exists pre, [SysReaddir "/srv/app"; SysReaddir "/srv/app/secret"]
                 = (pre ++ [SysReaddir "/srv/app/secret"])%list
                 /\ Forall (call_succeeds (disk (boot locked_fs))) pre.
Proof.
  apply (@walk_aborts_on_failed_read demo_base 3 demo_base (boot locked_fs)
           [SysReaddir "/srv/app"; SysReaddir "/srv/app/secret"]
           "/srv/app/secret" (EACCES "scandir" "/srv/app/secret")).
  - vm_compute. reflexivity.
  - simpl. right. left. reflexivity.
  - vm_compute. reflexivity.
Defined.

(** ** The tool handler *)

Section PreservesDisk.

Context {A B : Type}.

Lemma preserves_ret (a : A) : preserves_disk (ret a).
Proof. intros w. reflexivity. Qed.

Lemma preserves_throw (e : Error) : preserves_disk (@throw A e).
Proof. intros w. reflexivity. Qed.

Lemma preserves_bind (m : io A) (k : A -> io B) :
  preserves_disk m -> (forall a, preserves_disk (k a)) -> preserves_disk (bind m k).
Proof.
  intros Hm Hk w. unfold bind. specialize (Hm w).
  destruct (m w) as [[a | e |] w1]; simpl in *; trivial.
  now rewrite Hk.
Qed.

Lemma preserves_try_catch (m : io A) (h : Error -> io A) :
  preserves_disk m -> (forall e, preserves_disk (h e)) -> preserves_disk (try_catch m h).
Proof.
  intros Hm Hh w. unfold try_catch. specialize (Hm w).
  destruct (m w) as [[a | e |] w1]; simpl in *; trivial.
  now rewrite Hh.
Qed.

End PreservesDisk.

Lemma preserves_traced (A : Type) (m : io A) : traced m -> preserves_disk m.
Proof. intros H w. now destruct (H w). Qed.

Lemma preserves_readFile (path : string) : preserves_disk (readFile path).
Proof.
  intros w. unfold readFile, bind, log_call, of_result. simpl.
  now destruct (text_at (disk w) path).
Qed.

Lemma preserves_readdir (dir : string) : preserves_disk (readdir dir).
Proof.
  apply preserves_bind.
  - apply preserves_traced, traced_readdir_withFileTypes.
  - intros items. apply preserves_ret.
Qed.

Lemma readFile_run (path : string) (w : World) :
  readFile path w
  = (match text_at (disk w) path with
     | inr text => Returned text
     | inl e => Thrown e
     end, logged w [SysReadFile path]).
Proof.
  unfold readFile, bind, log_call, of_result, logged. simpl.
  now destruct (text_at (disk w) path).
Qed.

Lemma readdir_run (dir : string) (w : World) :
  readdir dir w
  = (match entries_at (disk w) dir with
     | inr items => Returned (map Dirent.name items)
     | inl e => Thrown e
     end, logged w [SysReaddir dir]).
Proof.
  unfold readdir, readdir_withFileTypes, bind, log_call, of_result, logged. simpl.
  now destruct (entries_at (disk w) dir).
Qed.

Create HintDb frame.
#[local] Hint Resolve preserves_ret preserves_throw preserves_readFile
  preserves_readdir : frame.
#[local] Hint Extern 1 (preserves_disk (listFilesRecursively _ _ _)) =>
  apply preserves_traced, traced_walk : frame.

Section CallTool.

Variable BASE_DIR : string.
Variable invalid_arg_message : JS.value -> string.

Local Abbreviation call := (callTool BASE_DIR invalid_arg_message).
Local Abbreviation walk := (listFilesRecursively BASE_DIR).

(** C6: a call-tool request for a tool that is neither [list-files] nor
    [read-file] fails with the error "Tool not found" and touches
    nothing, and no call-tool request at all changes the filesystem. *)
Theorem callTool_unknown_tool_and_read_only (fuel : nat)
        (request : CallToolRequest) (w : World) :
  (ct_name request <> "list-files" -> ct_name request <> "read-file" ->
   call fuel request w = (Thrown (mkError "Tool not found"), w))
  /\ disk (snd (call fuel request w)) = disk w.
Proof.
  split.
  - intros H1 H2. unfold callTool.
    apply String.eqb_neq in H1, H2. now rewrite H1, H2.
  - revert w. change (preserves_disk (call fuel request)).
    unfold callTool, join_argument.
    destruct (ct_name request =? "list-files");
      [| destruct (ct_name request =? "read-file") ];
      repeat match goal with
             | |- preserves_disk (if ?b then _ else _) => destruct b
             | |- preserves_disk (match ?v with JS.Str _ => _ | _ => _ end) => destruct v
             | |- preserves_disk (try_catch _ _) => apply preserves_try_catch; [|intro]
             | |- preserves_disk (bind _ _) => apply preserves_bind; [|intro]
             end; auto with frame.
Qed.

(** C2: a call-tool request for [list-files] whose recursive flag is absent
    or false makes one directory read, of the base directory, and returns
    the names of its entries, files and directories alike, as they were
    read; one whose flag is true returns the output of the recursive
    walker.  Either way the list is returned as JSON text, and an error is
    rethrown with its message after "Failed to list files: ". *)
Theorem list_files_flat_or_recursive (fuel : nat) (request : CallToolRequest)
        (w : World) (flag : JS.value) :
  ct_name request = "list-files" ->
  flag = JS.opt_get (ct_arguments request) "recursive" ->
  (flag = JS.Undefined \/ flag = JS.Bool false ->
   call fuel request w
   = (match entries_at (disk w) BASE_DIR with
      | inr items =>
          Returned [text_content (JSON.stringify (map Dirent.name items))]
      | inl e => Thrown (rewrap "Failed to list files: " e)
      end, logged w [SysReaddir BASE_DIR]))
  /\ (flag = JS.Bool true ->
      call fuel request w
      = (map_outcome (fun files => [text_content (JSON.stringify files)])
           (rewrap "Failed to list files: ")
           (fst (walk fuel BASE_DIR w)),
         snd (walk fuel BASE_DIR w))).
Proof.
  intros Hname Hflag. unfold callTool. rewrite Hname, <- Hflag.
  cbn [String.eqb Ascii.eqb Bool.eqb]. split.
  - intros [-> | ->]; cbn [JS.coalesce JS.truthy];
      unfold try_catch, bind; rewrite readdir_run;
      now destruct (entries_at (disk w) BASE_DIR).
  - intros ->. cbn [JS.coalesce JS.truthy]. unfold try_catch, bind.
    now destruct (walk fuel BASE_DIR w) as [[files | e |] w1].
Qed.

(** C3: a call-tool request for [read-file] whose path argument is missing
    or empty fails with the error "Path is required" before any
    filesystem call; one whose path argument names a file that can be read,
    relative to the base directory, makes one call, the read of that file,
    and returns its text as it is. *)
Theorem read_file_validates_then_reads (fuel : nat) (request : CallToolRequest)
        (w : World) (path : JS.value) :
  ct_name request = "read-file" ->
  path = JS.opt_get (ct_arguments request) "path" ->
  (path = JS.Undefined \/ path = JS.Str "" ->
   call fuel request w = (Thrown (mkError "Path is required"), w))
  /\ (forall s text,
        path = JS.Str s -> s <> "" ->
        text_at (disk w) (Path.join BASE_DIR s) = inr text ->
        call fuel request w
        = (Returned [text_content text],
           logged w [SysReadFile (Path.join BASE_DIR s)])).
Proof.
  intros Hname Hpath. unfold callTool. rewrite Hname, <- Hpath.
  cbn [String.eqb Ascii.eqb Bool.eqb]. split.
  - now intros [-> | ->].
  - intros s text -> Hs Htext. cbn [JS.truthy].
    destruct s as [|c s]; [congruence|]. cbn [Str.is_empty negb].
    unfold try_catch, bind, join_argument, ret, join.
    now rewrite readFile_run, Htext.
Qed.

End CallTool.

Lemma callTool_unknown_tool_and_read_only_witness :
  callTool demo_base arg_type_message 3
    {| ct_name := "delete-file"; ct_arguments := None |} (boot demo_fs)
  = (Thrown (mkError "Tool not found"), boot demo_fs)
  /\ disk (snd (callTool demo_base arg_type_message 3
                  {| ct_name := "list-files";
                     ct_arguments := Some [("recursive", JS.Bool true)] |}
                  (boot demo_fs))) = demo_fs.
Proof.
  split.
  - apply (@callTool_unknown_tool_and_read_only demo_base arg_type_message 3
             {| ct_name := "delete-file"; ct_arguments := None |} (boot demo_fs));
      simpl; discriminate.
  - apply (@callTool_unknown_tool_and_read_only demo_base arg_type_message 3
             {| ct_name := "list-files";
                ct_arguments := Some [("recursive", JS.Bool true)] |}
             (boot demo_fs)).
Defined.

Lemma list_files_flat_or_recursive_witness :
  callTool demo_base arg_type_message 3
    {| ct_name := "list-files"; ct_arguments := None |} (boot demo_fs)
  = (Returned [text_content (JSON.stringify ["src"; "README.md"; "bar"])],
     logged (boot demo_fs) [SysReaddir demo_base])
  /\ fst (callTool demo_base arg_type_message 3
            {| ct_name := "list-files";
               ct_arguments := Some [("recursive", JS.Bool true)] |}
            (boot demo_fs))
     = Returned [text_content
                   (JSON.stringify
                      ["src/Foo.txt"; "src/baz.txt"; "README.md"; "bar/foobar.md"])].
Proof.
  split.
  - apply (proj1 (@list_files_flat_or_recursive demo_base arg_type_message 3
                    {| ct_name := "list-files"; ct_arguments := None |}
                    (boot demo_fs) JS.Undefined eq_refl eq_refl)).
    left. reflexivity.
  - rewrite (proj2 (@list_files_flat_or_recursive demo_base arg_type_message 3
                      {| ct_name := "list-files";
                         ct_arguments := Some [("recursive", JS.Bool true)] |}
                      (boot demo_fs) (JS.Bool true) eq_refl eq_refl) eq_refl).
    vm_compute. reflexivity.
Defined.

Lemma read_file_validates_then_reads_witness :
  callTool demo_base arg_type_message 3
    {| ct_name := "read-file"; ct_arguments := Some [("path", JS.Str "")] |}
    (boot demo_fs)
  = (Thrown (mkError "Path is required"), boot demo_fs)
  /\ callTool demo_base arg_type_message 3
       {| ct_name := "read-file";
          ct_arguments := Some [("path", JS.Str "src/Foo.txt")] |} (boot demo_fs)
     = (Returned [text_content "foo"],
        logged (boot demo_fs) [SysReadFile "/srv/app/src/Foo.txt"]).
Proof.
  split.
  - apply (proj1 (@read_file_validates_then_reads demo_base arg_type_message 3
                    {| ct_name := "read-file";
                       ct_arguments := Some [("path", JS.Str "")] |}
                    (boot demo_fs) (JS.Str "") eq_refl eq_refl)).
    right. reflexivity.
  - apply (proj2 (@read_file_validates_then_reads demo_base arg_type_message 3
                    {| ct_name := "read-file";
                       ct_arguments := Some [("path", JS.Str "src/Foo.txt")] |}
                    (boot demo_fs) (JS.Str "src/Foo.txt") eq_refl eq_refl)
             "src/Foo.txt" "foo").
    + reflexivity.
    + discriminate.
    + vm_compute. reflexivity.
Defined.

(** ** The prompt and the resources *)

(** C7: a get-prompt request for the prompt [file-contents] whose path
    argument is missing, not a string, or the empty string fails with an
    error whose message starts with "Invalid path", after the line written
    to the error stream and without any filesystem call; the outcome is the
    same in every state of the filesystem. *)
Theorem get_prompt_rejects_invalid_path (BASE_DIR : string)
        (number_to_string : float -> string)
        (invalid_arg_message : JS.value -> string)
        (request : GetPromptRequest) (w : World) (path : JS.value) :
  gpr_name request = FILE_PROMPT_NAME ->
  path = JS.opt_get (gpr_arguments request) "path" ->
  path = JS.Undefined \/ JS.typeof path <> "string" \/ path = JS.Str "" ->
  getPrompt BASE_DIR number_to_string invalid_arg_message request w
  = (Thrown (mkError ("Invalid path: " ++ JS.ToString number_to_string path)),
     reported w GET_PROMPT_LINE)
  /\ forall w',
       fst (getPrompt BASE_DIR number_to_string invalid_arg_message request w')
       = fst (getPrompt BASE_DIR number_to_string invalid_arg_message request w).
Proof.
  intros Hname Hpath Hbad.
  assert (Hrun : forall w0,
             getPrompt BASE_DIR number_to_string invalid_arg_message request w0
             = (Thrown (mkError ("Invalid path: " ++ JS.ToString number_to_string path)),
                reported w0 GET_PROMPT_LINE)).
  { intros w0. unfold getPrompt. rewrite Hname, <- Hpath.
    cbn [FILE_PROMPT_NAME String.eqb Ascii.eqb Bool.eqb].
    assert (Htest : (negb (JS.typeof path =? "string") || JS.length_is_zero path)%bool = true).
    { destruct Hbad as [-> | [Hty | ->]]; trivial.
      apply String.eqb_neq in Hty. now rewrite Hty. }
    rewrite Htest. reflexivity. }
  split; [apply Hrun|]. intros w'. now rewrite !Hrun.
Qed.

Lemma get_prompt_rejects_invalid_path_witness :
  getPrompt demo_base no_number arg_type_message
    {| gpr_name := "file-contents"; gpr_arguments := Some [("path", JS.Str "")] |}
    (boot demo_fs)
  = (Thrown (mkError "Invalid path: "), reported (boot demo_fs) GET_PROMPT_LINE)
  /\ forall w',
       fst (getPrompt demo_base no_number arg_type_message
              {| gpr_name := "file-contents";
                 gpr_arguments := Some [("path", JS.Str "")] |} w')
       = fst (getPrompt demo_base no_number arg_type_message
                {| gpr_name := "file-contents";
                   gpr_arguments := Some [("path", JS.Str "")] |} (boot demo_fs)).
Proof.
  apply (@get_prompt_rejects_invalid_path demo_base no_number arg_type_message
           {| gpr_name := "file-contents"; gpr_arguments := Some [("path", JS.Str "")] |}
           (boot demo_fs) (JS.Str "") eq_refl eq_refl).
  right. right. reflexivity.
Defined.

(** C9: a read-resource request reads the file at the pathname of its URI,
    taken as it is for an absolute path: one call, the read of that path,
    whose text is returned when the read succeeds, wherever the path lies.
    The base directory plays no part in it. *)
Theorem read_resource_reads_pathname (URL_pathname : string -> Error + string)
        (uri filePath : string) (w : World) :
  URL_pathname uri = inr filePath ->
  readResource URL_pathname uri w
  = (match text_at (disk w) filePath with
     | inr text =>
         Returned [ {| rc_uri := uri; rc_mimeType := "text/plain"; rc_text := text |} ]
     | inl e => Thrown (rewrap "Failed to read file: " e)
     end, logged w [SysReadFile filePath]).
Proof.
  intros Hurl. unfold readResource, bind, try_catch. rewrite Hurl.
  cbn [of_result ret]. rewrite readFile_run.
  now destruct (text_at (disk w) filePath).
Qed.

Lemma read_resource_reads_pathname_witness :
  readResource file_URL_pathname "file:///etc/passwd" (boot demo_fs)
  = (Returned [ {| rc_uri := "file:///etc/passwd"; rc_mimeType := "text/plain";
                   rc_text := "root:x:0:0" |} ],
     logged (boot demo_fs) [SysReadFile "/etc/passwd"]).
Proof.
  apply (@read_resource_reads_pathname file_URL_pathname "file:///etc/passwd"
           "/etc/passwd" (boot demo_fs)).
  reflexivity.
Defined.

(** ** Completion *)

Lemma prefix_occurs (q s : string) :
  String.prefix q s = true <-> exists post, s = q ++ post.
Proof.
  revert s. induction q as [|a q IH]; intros s.
  - split; [intros _; now exists s | intros _; now destruct s].
  - destruct s as [|b s]; simpl.
    + split; [discriminate | intros (post & E); discriminate].
    + destruct (ascii_dec a b) as [-> | Hne].
      * rewrite IH. split; intros (post & E); exists post.
        -- now rewrite E.
        -- now inversion E.
      * split; [discriminate|]. intros (post & E). inversion E. congruence.
Qed.

(** [includes] finds the query exactly when it occurs. *)
Lemma includes_occurs (s q : string) :
  Str.includes s q = true <-> occurs_in q s.
Proof.
  unfold occurs_in. induction s as [|c s IH]; cbn [Str.includes].
  - rewrite orb_false_r, prefix_occurs. split.
    + intros (post & E). now exists "", post.
    + intros (pre & post & E). destruct pre; [|discriminate].
      now exists post.
  - rewrite orb_true_iff, prefix_occurs, IH. split.
    + intros [(post & E) | (pre & post & E)].
      * now exists "", post.
      * exists (String c pre), post. now rewrite E.
    + intros (pre & post & E). destruct pre as [|c' pre].
      * left. now exists post.
      * right. inversion E. now exists pre, post.
Qed.

Lemma includes_empty (s : string) : Str.includes s "" = true.
Proof. apply includes_occurs. now exists "", s. Qed.

Lemma filter_all (A : Type) (f : A -> bool) (l : list A) :
  (forall a, f a = true) -> filter f l = l.
Proof.
  intros H. induction l as [|a l IH]; simpl; [reflexivity|].
  now rewrite H, IH.
Qed.

Section Complete.

Variable BASE_DIR : string.
Variable toLowerCase : string -> string.

Local Abbreviation walk := (listFilesRecursively BASE_DIR).

Lemma complete_run (fuel : nat) (request : CompleteRequest) (w : World) :
  cr_ref request = PromptReference FILE_PROMPT_NAME ->
  complete BASE_DIR toLowerCase fuel request w
  = (map_outcome
       (filter (matches_query toLowerCase (cr_argument_value request)))
       (fun e => e)
       (fst (walk fuel BASE_DIR (reported w COMPLETE_LINE))),
     snd (walk fuel BASE_DIR (reported w COMPLETE_LINE))).
Proof.
  intros Href. unfold complete. rewrite Href.
  unfold bind, stderr_write. cbn [ref_name strict_equal_string].
  rewrite String.eqb_refl.
  unfold reported, COMPLETE_LINE.
  now destruct (walk fuel BASE_DIR _) as [[files | e |] w1].
Qed.

(** C4: a completion request that refers to the prompt [file-contents]
    with the query [q] returns the entries of the output of the recursive
    walker in whose path, put in lower case, the query put in lower case
    occurs; they are filtered out of the output of the walker, so they
    keep its order and none is dropped for a limit.  The name of the
    argument plays no part. *)
Theorem complete_filters_walker_output (fuel : nat) (request : CompleteRequest)
        (w : World) (q : string) :
  cr_ref request = PromptReference FILE_PROMPT_NAME ->
  cr_argument_value request = q ->
  complete BASE_DIR toLowerCase fuel request w
  = (map_outcome (filter (matches_query toLowerCase q)) (fun e => e)
       (fst (walk fuel BASE_DIR (reported w COMPLETE_LINE))),
     snd (walk fuel BASE_DIR (reported w COMPLETE_LINE)))
  /\ forall file,
       matches_query toLowerCase q file = true
       <-> occurs_in (toLowerCase q) (toLowerCase file).
Proof.
  intros Href <-. split; [now apply complete_run|].
  intros file. apply includes_occurs.
Qed.

(** C10: with the empty query, completion for the prompt [file-contents]
    is the recursive walker: it returns the whole output of the walker, in
    its order, for the lower case of the empty string is the empty string,
    which occurs in every path. *)
Theorem complete_empty_query_is_walker (fuel : nat) (request : CompleteRequest)
        (w : World) :
  toLowerCase "" = "" ->
  cr_ref request = PromptReference FILE_PROMPT_NAME ->
  cr_argument_value request = "" ->
  complete BASE_DIR toLowerCase fuel request w
  = walk fuel BASE_DIR (reported w COMPLETE_LINE).
Proof.
  intros Hlower Href Hq. rewrite complete_run by assumption. rewrite Hq.
  destruct (walk fuel BASE_DIR (reported w COMPLETE_LINE)) as [[files | e |] w1];
    cbn [fst snd map_outcome]; trivial.
  rewrite filter_all; trivial.
  intros file. unfold matches_query. rewrite Hlower. apply includes_empty.
Qed.

End Complete.

Lemma complete_filters_walker_output_witness :
  fst (complete demo_base lower_ascii 3
         {| cr_ref := PromptReference "file-contents";
            cr_argument_name := "path"; cr_argument_value := "foo" |}
         (boot demo_fs))
  = Returned ["src/Foo.txt"; "bar/foobar.md"].
Proof.
  rewrite (proj1 (@complete_filters_walker_output demo_base lower_ascii 3
                    {| cr_ref := PromptReference "file-contents";
                       cr_argument_name := "path"; cr_argument_value := "foo" |}
                    (boot demo_fs) "foo" eq_refl eq_refl)).
  vm_compute. reflexivity.
Defined.

Lemma complete_empty_query_is_walker_witness :
  fst (complete demo_base lower_ascii 3
         {| cr_ref := PromptReference "file-contents";
            cr_argument_name := "path"; cr_argument_value := "" |}
         (boot demo_fs))
  = Returned ["src/Foo.txt"; "src/baz.txt"; "README.md"; "bar/foobar.md"].
Proof.
  rewrite (@complete_empty_query_is_walker demo_base lower_ascii 3
             {| cr_ref := PromptReference "file-contents";
                cr_argument_name := "path"; cr_argument_value := "" |}
             (boot demo_fs) eq_refl eq_refl eq_refl).
  vm_compute. reflexivity.
Defined.

(** ** The resource catalog *)

(** C5: the list-resources handler makes one resource of each entry of the
    output of the recursive walker, in its order, none left out, merged or
    held back: the name of the resource is the entry, which is the path of
    the file relative to the base directory, its MIME type is
    [text/plain], and its URI is [file://] followed by the base directory
    joined with the entry, which on a tree is the absolute path of the
    file. *)
Theorem resources_mirror_walker (fs : FileSystem) (base : list string) :
  (forall BASE_DIR fuel w,
     listResources BASE_DIR fuel w
     = (map_outcome (map (resource_of BASE_DIR)) (fun e => e)
          (fst (listFilesRecursively BASE_DIR fuel BASE_DIR w)),
        snd (listFilesRecursively BASE_DIR fuel BASE_DIR w)))
  /\ (good base -> tree fs base ->
      exists n R,
        proper R
        /\ (forall r, In r R <-> leaf fs base r)
        /\ forall fuel w, n <= fuel -> disk w = fs ->
             fst (listFilesRecursively (abs_path base) fuel (abs_path base) w)
             = Returned (map rel_path R)
             /\ fst (listResources (abs_path base) fuel w)
                = Returned (map (resource_at base) R)).
Proof.
  assert (Hrun : forall BASE_DIR fuel w,
             listResources BASE_DIR fuel w
             = (map_outcome (map (resource_of BASE_DIR)) (fun e => e)
                  (fst (listFilesRecursively BASE_DIR fuel BASE_DIR w)),
                snd (listFilesRecursively BASE_DIR fuel BASE_DIR w))).
  { intros BASE_DIR fuel w. unfold listResources, bind.
    now destruct (listFilesRecursively BASE_DIR fuel BASE_DIR w) as [[files | e |] w1]. }
  split; [exact Hrun|]. intros Hbase Ht.
  destruct (@walk_tree fs base Hbase base Ht [] (Forall_nil _) (eq_sym (app_nil_r base)))
    as (n & R & Hwalk & Hprop & Hin).
  exists n, R. split; [exact Hprop|]. split.
  { intros r. rewrite Hin. now rewrite app_nil_r. }
  intros fuel w Hf Hw. destruct (Hwalk fuel w Hf Hw) as (w' & E & _).
  rewrite app_nil_r in E. rewrite Hrun, E. cbn [fst map_outcome].
  split; [reflexivity|]. f_equal. rewrite map_map.
  apply map_ext_in. intros r Hr. destruct Hprop as [_ Hall].
  rewrite Forall_forall in Hall. destruct (Hall r Hr) as [Hg Hne].
  unfold resource_of, resource_at. cbn [app].
  now rewrite (join_abs_rel Hbase Hg Hne).
Qed.

Lemma resources_mirror_walker_witness :
  exists n R,
    proper R
    /\ (forall r, In r R <-> leaf demo_fs demo_segments r)
    /\ forall fuel w, n <= fuel -> disk w = demo_fs ->
         fst (listFilesRecursively (abs_path demo_segments) fuel
                (abs_path demo_segments) w)
         = Returned (map rel_path R)
         /\ fst (listResources (abs_path demo_segments) fuel w)
            = Returned (map (resource_at demo_segments) R).
Proof.
  apply (proj2 (resources_mirror_walker demo_fs demo_segments)).
  - exact demo_segments_good.
  - exact demo_tree.
Defined.

(** * Further properties of the handlers *)

(** ** Reading a file for a tool call or a prompt *)

Lemma try_catch_rewrap (A : Type) (m : io A) (prefix : string) (w : World) (e' : Error) :
  fst (try_catch m (fun error => throw (mkError (prefix ++ message error))) w)
  = Thrown e' ->
  exists e, e' = rewrap prefix e.
Proof.
  unfold try_catch, throw. destruct (m w) as [[a | e |] w1]; simpl;
    intros H; inversion H. now exists e.
Qed.

Lemma callTool_read_file_run (BASE_DIR : string)
      (invalid_arg_message : JS.value -> string) (fuel : nat)
      (request : CallToolRequest) (w : World) (s : string) :
  ct_name request = "read-file" ->
  JS.opt_get (ct_arguments request) "path" = JS.Str s ->
  s <> "" ->
  callTool BASE_DIR invalid_arg_message fuel request w
  = (read_outcome (disk w) (Path.join BASE_DIR s) (fun text => [text_content text]),
     logged w [SysReadFile (Path.join BASE_DIR s)]).
Proof.
  intros Hname Hpath Hs. unfold callTool. rewrite Hname, Hpath.
  cbn [String.eqb Ascii.eqb Bool.eqb JS.truthy].
  destruct s as [|c s]; [congruence|]. cbn [Str.is_empty negb].
  unfold try_catch, bind, join_argument, ret, join, read_outcome.
  rewrite readFile_run. now destruct (text_at (disk w) _).
Qed.

Lemma getPrompt_run (BASE_DIR : string) (number_to_string : float -> string)
      (invalid_arg_message : JS.value -> string)
      (request : GetPromptRequest) (w : World) (s : string) :
  gpr_name request = FILE_PROMPT_NAME ->
  JS.opt_get (gpr_arguments request) "path" = JS.Str s ->
  s <> "" ->
  getPrompt BASE_DIR number_to_string invalid_arg_message request w
  = (read_outcome (disk w) (Path.join BASE_DIR s) (prompt_result s),
     logged (reported w GET_PROMPT_LINE) [SysReadFile (Path.join BASE_DIR s)]).
Proof.
  intros Hname Hpath Hs. unfold getPrompt. rewrite Hname, Hpath.
  cbn [FILE_PROMPT_NAME String.eqb Ascii.eqb Bool.eqb JS.typeof JS.length_is_zero].
  destruct s as [|c s]; [congruence|]. cbn [Str.is_empty negb orb].
  unfold try_catch, bind, stderr_write, join_argument, ret, join, read_outcome.
  rewrite readFile_run. cbn [disk JS.ToString].
  now destruct (text_at (disk w) _).
Qed.

(** X1: [read-file] with a path argument that is falsy (absent, [null],
    [false], zero, not a number, or the empty string) fails with "Path is
    required"; with one that is truthy and not a string (a number, [true],
    an array, an object) it fails with "Failed to read file: " before the
    message with which [join] refuses the argument.  Neither makes a
    filesystem call. *)
Theorem read_file_refuses_what_is_no_path (BASE_DIR : string)
        (invalid_arg_message : JS.value -> string) (fuel : nat)
        (request : CallToolRequest) (w : World) (path : JS.value) :
  ct_name request = "read-file" ->
  path = JS.opt_get (ct_arguments request) "path" ->
  (JS.truthy path = false ->
   callTool BASE_DIR invalid_arg_message fuel request w
   = (Thrown (mkError "Path is required"), w))
  /\ (JS.truthy path = true -> JS.typeof path <> "string" ->
      callTool BASE_DIR invalid_arg_message fuel request w
      = (Thrown (mkError ("Failed to read file: " ++ invalid_arg_message path)), w)).
Proof.
  intros Hname Hpath. unfold callTool. rewrite Hname, <- Hpath.
  cbn [String.eqb Ascii.eqb Bool.eqb]. split.
  - now intros ->.
  - intros -> Hty. cbn [negb].
    destruct path; try reflexivity. now contradiction Hty.
Qed.

Lemma read_file_refuses_what_is_no_path_witness :
  callTool demo_base arg_type_message 1
    {| ct_name := "read-file"; ct_arguments := Some [("path", JS.Null)] |}
    (boot demo_fs)
  = (Thrown (mkError "Path is required"), boot demo_fs)
  /\ callTool demo_base arg_type_message 1
       {| ct_name := "read-file";
          ct_arguments := Some [("path", JS.Array [JS.Str "a.txt"])] |}
       (boot demo_fs)
     = (Thrown (mkError ("Failed to read file: "
                         ++ arg_type_message (JS.Array [JS.Str "a.txt"]))),
        boot demo_fs).
Proof.
  split.
  - apply (proj1 (@read_file_refuses_what_is_no_path demo_base arg_type_message 1
                    {| ct_name := "read-file";
                       ct_arguments := Some [("path", JS.Null)] |}
                    (boot demo_fs) JS.Null eq_refl eq_refl)).
    reflexivity.
  - apply (proj2 (@read_file_refuses_what_is_no_path demo_base arg_type_message 1
                    {| ct_name := "read-file";
                       ct_arguments := Some [("path", JS.Array [JS.Str "a.txt"])] |}
                    (boot demo_fs) (JS.Array [JS.Str "a.txt"]) eq_refl eq_refl)).
    + reflexivity.
    + simpl. discriminate.
Defined.

(** X2: when the read behind [read-file] fails, the handler throws an
    error whose message is "Failed to read file: " followed by the message
    of the error of the read; it has made the one call, the read of
    [join(BASE_DIR, path)], and returns nothing. *)
Theorem read_file_wraps_read_error (BASE_DIR : string)
        (invalid_arg_message : JS.value -> string) (fuel : nat)
        (request : CallToolRequest) (w : World) (s : string) (e : Error) :
  ct_name request = "read-file" ->
  JS.opt_get (ct_arguments request) "path" = JS.Str s ->
  s <> "" ->
  text_at (disk w) (Path.join BASE_DIR s) = inl e ->
  callTool BASE_DIR invalid_arg_message fuel request w
  = (Thrown (mkError ("Failed to read file: " ++ message e)),
     logged w [SysReadFile (Path.join BASE_DIR s)]).
Proof.
  intros Hname Hpath Hs He.
  rewrite (callTool_read_file_run _ _ _ _ _ Hname Hpath Hs).
  unfold read_outcome. now rewrite He.
Qed.

Lemma read_file_wraps_read_error_witness :
  callTool demo_base arg_type_message 1
    {| ct_name := "read-file"; ct_arguments := Some [("path", JS.Str "missing.txt")] |}
    (boot demo_fs)
  = (Thrown (mkError ("Failed to read file: "
                      ++ message (ENOENT "open" "/srv/app/missing.txt"))),
     logged (boot demo_fs) [SysReadFile "/srv/app/missing.txt"]).
Proof.
  apply (@read_file_wraps_read_error demo_base arg_type_message 1
           {| ct_name := "read-file";
              ct_arguments := Some [("path", JS.Str "missing.txt")] |}
           (boot demo_fs) "missing.txt" (ENOENT "open" "/srv/app/missing.txt")).
  - reflexivity.
  - reflexivity.
  - discriminate.
  - vm_compute. reflexivity.
Defined.

(** ** Listing files for a tool call *)

Lemma callTool_list_files_run (BASE_DIR : string)
      (invalid_arg_message : JS.value -> string) (fuel : nat)
      (request : CallToolRequest) (w : World) :
  ct_name request = "list-files" ->
  callTool BASE_DIR invalid_arg_message fuel request w
  = if JS.truthy (JS.coalesce (JS.opt_get (ct_arguments request) "recursive")
                    (JS.Bool false))
    then (map_outcome (fun files => [text_content (JSON.stringify files)])
            (rewrap "Failed to list files: ")
            (fst (listFilesRecursively BASE_DIR fuel BASE_DIR w)),
          snd (listFilesRecursively BASE_DIR fuel BASE_DIR w))
    else (match entries_at (disk w) BASE_DIR with
          | inr items =>
              Returned [text_content (JSON.stringify (map Dirent.name items))]
          | inl e => Thrown (rewrap "Failed to list files: " e)
          end, logged w [SysReaddir BASE_DIR]).
Proof.
  intros Hname. unfold callTool. rewrite Hname.
  cbn [String.eqb Ascii.eqb Bool.eqb].
  destruct (JS.truthy _); unfold try_catch, bind.
  - now destruct (listFilesRecursively BASE_DIR fuel BASE_DIR w) as [[files | e |] w1].
  - rewrite readdir_run. now destruct (entries_at (disk w) BASE_DIR).
Qed.

(** X3: [list-files] decides by the truthiness of the recursive flag, not
    by its being [true]: every truthy value (a number other than zero, a
    string that is not empty, the string "false" among them, an array, an
    object) gives the recursive listing, and every falsy one ([null],
    zero, the empty string) the flat listing of one directory read. *)
Theorem list_files_decides_by_truthiness (BASE_DIR : string)
        (invalid_arg_message : JS.value -> string) (fuel : nat)
        (request : CallToolRequest) (w : World) (flag : JS.value) :
  ct_name request = "list-files" ->
  flag = JS.opt_get (ct_arguments request) "recursive" ->
  (JS.truthy flag = true ->
   callTool BASE_DIR invalid_arg_message fuel request w
   = (map_outcome (fun files => [text_content (JSON.stringify files)])
        (rewrap "Failed to list files: ")
        (fst (listFilesRecursively BASE_DIR fuel BASE_DIR w)),
      snd (listFilesRecursively BASE_DIR fuel BASE_DIR w)))
  /\ (JS.truthy flag = false ->
      callTool BASE_DIR invalid_arg_message fuel request w
      = (match entries_at (disk w) BASE_DIR with
         | inr items =>
             Returned [text_content (JSON.stringify (map Dirent.name items))]
         | inl e => Thrown (rewrap "Failed to list files: " e)
         end, logged w [SysReaddir BASE_DIR])).
Proof.
  intros Hname Hflag. rewrite (callTool_list_files_run _ _ _ _ _ Hname), <- Hflag.
  split; intros Ht.
  - assert (E : JS.coalesce flag (JS.Bool false) = flag)
      by (destruct flag; trivial; discriminate).
    now rewrite E, Ht.
  - assert (E : JS.truthy (JS.coalesce flag (JS.Bool false)) = false)
      by (destruct flag; trivial).
    now rewrite E.
Qed.

Lemma list_files_decides_by_truthiness_witness :
  fst (callTool demo_base arg_type_message 2
         {| ct_name := "list-files";
            ct_arguments := Some [("recursive", JS.Str "false")] |}
         (boot demo_fs))
  = Returned [text_content
                (JSON.stringify
                   ["src/Foo.txt"; "src/baz.txt"; "README.md"; "bar/foobar.md"])]
  /\ fst (callTool demo_base arg_type_message 2
            {| ct_name := "list-files";
               ct_arguments := Some [("recursive", JS.Null)] |}
            (boot demo_fs))
     = Returned [text_content (JSON.stringify ["src"; "README.md"; "bar"])].
Proof.
  split.
  - rewrite (proj1 (@list_files_decides_by_truthiness demo_base arg_type_message 2
                      {| ct_name := "list-files";
                         ct_arguments := Some [("recursive", JS.Str "false")] |}
                      (boot demo_fs) (JS.Str "false") eq_refl eq_refl) eq_refl).
    vm_compute. reflexivity.
  - rewrite (proj2 (@list_files_decides_by_truthiness demo_base arg_type_message 2
                      {| ct_name := "list-files";
                         ct_arguments := Some [("recursive", JS.Null)] |}
                      (boot demo_fs) JS.Null eq_refl eq_refl) eq_refl).
    vm_compute. reflexivity.
Defined.

(** ** The tools and prompts that are listed are those that are served *)

(** X4: the default that the listed tool [list-files] declares for its
    argument [recursive] is the one the handler uses: a call without the
    argument does what a call with the argument at its declared default
    does. *)
Theorem list_files_default_is_declared (BASE_DIR : string)
        (invalid_arg_message : JS.value -> string) (fuel : nat)
        (w0 w : World) (tools : list Tool) (tool : Tool)
        (request request' : CallToolRequest) :
  fst (listTools w0) = Returned tools ->
  In tool tools -> tool_name tool = "list-files" ->
  ct_name request = "list-files" -> ct_name request' = "list-files" ->
  JS.opt_get (ct_arguments request) "recursive" = JS.Undefined ->
  JS.opt_get (ct_arguments request') "recursive" = declared_default tool "recursive" ->
  callTool BASE_DIR invalid_arg_message fuel request w
  = callTool BASE_DIR invalid_arg_message fuel request' w.
Proof.
  intros Htools Hin Htool Hn Hn' Harg Harg'.
  inversion Htools; subst tools; clear Htools.
  destruct Hin as [<- | [<- | []]]; [|discriminate Htool].
  rewrite !callTool_list_files_run by assumption.
  now rewrite Harg, Harg'.
Qed.

Lemma list_files_default_is_declared_witness :
  callTool demo_base arg_type_message 2
    {| ct_name := "list-files"; ct_arguments := None |} (boot demo_fs)
  = callTool demo_base arg_type_message 2
      {| ct_name := "list-files";
         ct_arguments := Some [("recursive", JS.Bool false)] |} (boot demo_fs).
Proof.
  destruct (fst (listTools (boot demo_fs))) as [tools | |] eqn:E;
    try discriminate E.
  destruct tools as [|tool rest]; [discriminate E|].
  apply (@list_files_default_is_declared demo_base arg_type_message 2
           (boot demo_fs) (boot demo_fs) (tool :: rest) tool
           {| ct_name := "list-files"; ct_arguments := None |}
           {| ct_name := "list-files";
              ct_arguments := Some [("recursive", JS.Bool false)] |});
    inversion E; subst; try reflexivity.
  now left.
Defined.

(** X5: the tool handler fails with "Tool not found" exactly for the names
    that the list of tools does not hold: each listed tool is served, and
    nothing else is. *)
Theorem tool_found_iff_listed (BASE_DIR : string)
        (invalid_arg_message : JS.value -> string) (fuel : nat)
        (request : CallToolRequest) (w0 w : World) (tools : list Tool) :
  fst (listTools w0) = Returned tools ->
  fst (callTool BASE_DIR invalid_arg_message fuel request w)
  = Thrown (mkError "Tool not found")
  <-> ~ In (ct_name request) (map tool_name tools).
Proof.
  intros Htools. inversion Htools; subst tools; clear Htools.
  cbn [map tool_name In]. unfold callTool. split.
  - intros H [E | [E | []]]; rewrite <- E in H;
      cbn [String.eqb Ascii.eqb Bool.eqb] in H.
    + apply try_catch_rewrap in H as (e & He). discriminate He.
    + destruct (negb _); [discriminate H|].
      apply try_catch_rewrap in H as (e & He). discriminate He.
  - intros H.
    destruct (ct_name request =? "list-files") eqn:E1.
    { apply String.eqb_eq in E1. exfalso. apply H. now left. }
    destruct (ct_name request =? "read-file") eqn:E2.
    { apply String.eqb_eq in E2. exfalso. apply H. right. now left. }
    reflexivity.
Qed.

Lemma tool_found_iff_listed_witness :
  fst (callTool demo_base arg_type_message 2
         {| ct_name := "write-file"; ct_arguments := None |} (boot demo_fs))
  = Thrown (mkError "Tool not found")
  <-> ~ In "write-file" ["list-files"; "read-file"].
Proof.
  exact (@tool_found_iff_listed demo_base arg_type_message 2
           {| ct_name := "write-file"; ct_arguments := None |}
           (boot demo_fs) (boot demo_fs) _ eq_refl).
Defined.

(** X6: a get-prompt request for [file-contents] with a path that is a
    string and not empty makes one filesystem call, the read of
    [join(BASE_DIR, path)]; when the read succeeds the result is described
    as "Contents of " and the path and holds one message, of the role
    "user", whose text is the text of the file; when it fails the handler
    throws "Failed to read file: " and the message of the error. *)
Theorem get_prompt_wraps_file_text (BASE_DIR : string)
        (number_to_string : float -> string)
        (invalid_arg_message : JS.value -> string)
        (request : GetPromptRequest) (w : World) (s : string) :
  gpr_name request = FILE_PROMPT_NAME ->
  JS.opt_get (gpr_arguments request) "path" = JS.Str s ->
  s <> "" ->
  (forall text,
     text_at (disk w) (Path.join BASE_DIR s) = inr text ->
     getPrompt BASE_DIR number_to_string invalid_arg_message request w
     = (Returned
          {| gp_description := "Contents of " ++ s;
             gp_messages :=
               [ {| pm_role := "user";
                    pm_content := {| tc_type := "text"; tc_text := text |} |} ] |},
        logged (reported w GET_PROMPT_LINE) [SysReadFile (Path.join BASE_DIR s)]))
  /\ (forall e,
        text_at (disk w) (Path.join BASE_DIR s) = inl e ->
        getPrompt BASE_DIR number_to_string invalid_arg_message request w
        = (Thrown (mkError ("Failed to read file: " ++ message e)),
           logged (reported w GET_PROMPT_LINE) [SysReadFile (Path.join BASE_DIR s)])).
Proof.
  intros Hname Hpath Hs.
  rewrite (getPrompt_run _ _ _ _ _ Hname Hpath Hs). unfold read_outcome.
  split; [intros text E | intros e E]; now rewrite E.
Qed.

Lemma get_prompt_wraps_file_text_witness :
  getPrompt demo_base no_number arg_type_message
    {| gpr_name := "file-contents";
       gpr_arguments := Some [("path", JS.Str "bar/foobar.md")] |}
    (boot demo_fs)
  = (Returned
       {| gp_description := "Contents of bar/foobar.md";
          gp_messages :=
            [ {| pm_role := "user";
                 pm_content := {| tc_type := "text"; tc_text := "foobar" |} |} ] |},
     logged (reported (boot demo_fs) GET_PROMPT_LINE)
       [SysReadFile "/srv/app/bar/foobar.md"]).
Proof.
  apply (proj1 (@get_prompt_wraps_file_text demo_base no_number arg_type_message
                  {| gpr_name := "file-contents";
                     gpr_arguments := Some [("path", JS.Str "bar/foobar.md")] |}
                  (boot demo_fs) "bar/foobar.md" eq_refl eq_refl
                  ltac:(discriminate))).
  vm_compute. reflexivity.
Defined.

(** X7: the prompt handler fails with "Prompt '...' not implemented"
    exactly for the names that the list of prompts does not hold. *)
Theorem prompt_implemented_iff_listed (BASE_DIR : string)
        (number_to_string : float -> string)
        (invalid_arg_message : JS.value -> string)
        (request : GetPromptRequest) (w0 w : World) (prompts : list Prompt) :
  fst (listPrompts w0) = Returned prompts ->
  fst (getPrompt BASE_DIR number_to_string invalid_arg_message request w)
  = Thrown (not_implemented (gpr_name request))
  <-> ~ In (gpr_name request) (map prompt_name prompts).
Proof.
  intros Hprompts. inversion Hprompts; subst prompts; clear Hprompts.
  cbn [map prompt_name In]. unfold getPrompt, bind, stderr_write. split.
  - intros H [E | []]. rewrite <- E in H.
    cbn [FILE_PROMPT_NAME String.eqb Ascii.eqb Bool.eqb] in H.
    destruct (negb _ || _)%bool; [discriminate H|].
    apply try_catch_rewrap in H as (e & He). discriminate He.
  - intros H.
    destruct (gpr_name request =? FILE_PROMPT_NAME) eqn:E.
    { apply String.eqb_eq in E. exfalso. apply H. left. now rewrite E. }
    reflexivity.
Qed.

Lemma prompt_implemented_iff_listed_witness :
  fst (getPrompt demo_base no_number arg_type_message
         {| gpr_name := "summary"; gpr_arguments := None |} (boot demo_fs))
  = Thrown (mkError "Prompt 'summary' not implemented")
  <-> ~ In "summary" ["file-contents"].
Proof.
  exact (@prompt_implemented_iff_listed demo_base no_number arg_type_message
           {| gpr_name := "summary"; gpr_arguments := None |}
           (boot demo_fs) (boot demo_fs) _ eq_refl).
Defined.

(** ** Completion and resources at their edges *)

(** X8: a completion request that refers to anything but the prompt
    [file-contents], another prompt or a resource, fails with "unknown
    prompt" after the line written to the error stream, and makes no
    filesystem call. *)
Theorem complete_unknown_reference (BASE_DIR : string)
        (toLowerCase : string -> string) (fuel : nat)
        (request : CompleteRequest) (w : World) :
  cr_ref request <> PromptReference FILE_PROMPT_NAME ->
  complete BASE_DIR toLowerCase fuel request w
  = (Thrown (mkError "unknown prompt"), reported w COMPLETE_LINE).
Proof.
  intros Href. unfold complete, bind, stderr_write.
  destruct (cr_ref request) as [name | uri]; cbn [ref_name strict_equal_string].
  - destruct (name =? FILE_PROMPT_NAME) eqn:E; [|reflexivity].
    apply String.eqb_eq in E. now subst name.
  - reflexivity.
Qed.

Lemma complete_unknown_reference_witness :
  complete demo_base lower_ascii 2
    {| cr_ref := ResourceReference "file-contents";
       cr_argument_name := "path"; cr_argument_value := "foo" |} (boot demo_fs)
  = (Thrown (mkError "unknown prompt"), reported (boot demo_fs) COMPLETE_LINE).
Proof.
  apply (@complete_unknown_reference demo_base lower_ascii 2
           {| cr_ref := ResourceReference "file-contents";
              cr_argument_name := "path"; cr_argument_value := "foo" |}
           (boot demo_fs)).
  simpl. discriminate.
Defined.

Lemma append_assoc (a b c : string) : (a ++ b) ++ c = a ++ b ++ c.
Proof. induction a as [|x a IH]; simpl; [reflexivity | now rewrite IH]. Qed.

Lemma occurs_in_trans (a b c : string) :
  occurs_in a b -> occurs_in b c -> occurs_in a c.
Proof.
  intros (pre & post & ->) (pre' & post' & ->).
  exists (pre' ++ pre), (post ++ post'). now rewrite !append_assoc.
Qed.

(** X9: a longer query narrows the completion: when the query [q], in
    lower case, occurs in the query [q'], in lower case, every value
    returned for [q'] is returned for [q], in the same world. *)
Theorem complete_narrows (BASE_DIR : string) (toLowerCase : string -> string)
        (fuel : nat) (request request' : CompleteRequest) (w : World)
        (values values' : list string) :
  cr_ref request = PromptReference FILE_PROMPT_NAME ->
  cr_ref request' = PromptReference FILE_PROMPT_NAME ->
  occurs_in (toLowerCase (cr_argument_value request))
    (toLowerCase (cr_argument_value request')) ->
  fst (complete BASE_DIR toLowerCase fuel request w) = Returned values ->
  fst (complete BASE_DIR toLowerCase fuel request' w) = Returned values' ->
  incl values' values.
Proof.
  intros Href Href' Hocc. rewrite !complete_run by assumption. cbn [fst].
  destruct (fst (listFilesRecursively BASE_DIR fuel BASE_DIR (reported w COMPLETE_LINE)))
    as [files | e |]; cbn [map_outcome]; intros H H'; inversion H; inversion H'.
  intros file Hin. apply filter_In in Hin as [Hin Hm]. apply filter_In.
  split; [assumption|]. unfold matches_query in *.
  apply includes_occurs. apply includes_occurs in Hm.
  now apply (occurs_in_trans Hocc).
Qed.

Lemma complete_narrows_witness :
  incl ["bar/foobar.md"] ["src/Foo.txt"; "bar/foobar.md"].
Proof.
  apply (@complete_narrows demo_base lower_ascii 2
           {| cr_ref := PromptReference "file-contents";
              cr_argument_name := "path"; cr_argument_value := "FOO" |}
           {| cr_ref := PromptReference "file-contents";
              cr_argument_name := "path"; cr_argument_value := "fooB" |}
           (boot demo_fs)).
  - reflexivity.
  - reflexivity.
  - exists "", "b". reflexivity.
  - vm_compute. reflexivity.
  - vm_compute. reflexivity.
Defined.

(** X10: a read-resource request whose URI the URL constructor refuses
    fails with the error of the constructor as it is, not rewrapped, and
    makes no filesystem call. *)
Theorem read_resource_invalid_uri (URL_pathname : string -> Error + string)
        (uri : string) (w : World) (e : Error) :
  URL_pathname uri = inl e ->
  readResource URL_pathname uri w = (Thrown e, w).
Proof.
  intros Hurl. unfold readResource, bind. now rewrite Hurl.
Qed.

Lemma read_resource_invalid_uri_witness :
  readResource file_URL_pathname "README.md" (boot demo_fs)
  = (Thrown (mkError "Invalid URL"), boot demo_fs).
Proof.
  apply (@read_resource_invalid_uri file_URL_pathname "README.md" (boot demo_fs)).
  reflexivity.
Defined.

(** ** The order and the calls of the walk *)

Section WalkOrder.

Variable BASE_DIR : string.

Local Abbreviation walk := (listFilesRecursively BASE_DIR).

Lemma for_of_concatenates (fuel : nat) (dirpath : string) (fs : FileSystem)
      (sub : Dirent.t -> list string) (its : list Dirent.t) :
  (forall d w', In d its -> Dirent.isDirectory d = true -> disk w' = fs ->
     fst (walk fuel (Path.join dirpath (Dirent.name d)) w') = Returned (sub d)) ->
  forall acc w, disk w = fs ->
    exists w',
      for_of its
        (fun files item =>
           let fullPath := join dirpath (Dirent.name item) in
           if Dirent.isDirectory item
           then bind (walk fuel fullPath) (fun s => ret (files ++ s)%list)
           else ret (files ++ [relative BASE_DIR BASE_DIR fullPath])%list)
        acc w
      = (Returned (acc ++ flat_map (listed_for BASE_DIR dirpath sub) its)%list, w')
      /\ disk w' = fs.
Proof.
  induction its as [|x rest IH]; intros Hsub acc w Hw.
  - exists w. simpl. unfold ret. now rewrite app_nil_r.
  - cbn [for_of flat_map]. unfold listed_for at 1.
    destruct (Dirent.isDirectory x) eqn:Ex.
    + pose proof (Hsub x w (or_introl eq_refl) Ex Hw) as Hx.
      destruct (traced_walk BASE_DIR fuel (Path.join dirpath (Dirent.name x)) w)
        as (Hd & _).
      destruct (walk fuel (Path.join dirpath (Dirent.name x)) w) as [out w1] eqn:E.
      simpl in Hx, Hd. subst out.
      destruct (IH (fun d w' Hin => Hsub d w' (or_intror Hin)) (acc ++ sub x)%list w1)
        as (w' & E' & Hw'); [congruence|].
      exists w'. split; [|assumption].
      erewrite bind_returned
        by (erewrite bind_returned by exact E; reflexivity).
      etransitivity; [exact E'|]. now rewrite app_assoc.
    + destruct (IH (fun d w' Hin => Hsub d w' (or_intror Hin))
                  (acc ++ [Path.relative BASE_DIR BASE_DIR
                             (Path.join dirpath (Dirent.name x))])%list w Hw)
        as (w' & E' & Hw').
      exists w'. split; [|assumption].
      erewrite bind_returned by reflexivity.
      etransitivity; [exact E'|]. now rewrite <- app_assoc.
Qed.

(** X11: the walk of a directory returns, for its entries in the order in
    which the directory lists them, the path of each entry that is not a
    directory and, in the place of each entry that is one, all that the
    walk of that directory returns: depth first, nothing sorted. *)
Theorem walk_concatenates_in_listing_order (fuel : nat) (dirpath : string)
        (w : World) (items : list Dirent.t) (sub : Dirent.t -> list string) :
  entries_at (disk w) dirpath = inr items ->
  (forall d w', In d items -> Dirent.isDirectory d = true -> disk w' = disk w ->
     fst (walk fuel (Path.join dirpath (Dirent.name d)) w') = Returned (sub d)) ->
  fst (walk (S fuel) dirpath w)
  = Returned (flat_map (listed_for BASE_DIR dirpath sub) items).
Proof.
  intros E Hsub. cbn [listFilesRecursively].
  erewrite bind_returned by (apply readdir_withFileTypes_ok; exact E).
  match goal with
  | |- context [for_of _ _ _ ?w1] =>
      destruct (@for_of_concatenates fuel dirpath (disk w) sub items Hsub [] w1 eq_refl)
        as (w' & E' & _)
  end.
  etransitivity; [exact (f_equal fst E')|]. reflexivity.
Qed.

End WalkOrder.

Lemma walk_concatenates_in_listing_order_witness :
  fst (listFilesRecursively demo_base 2 demo_base (boot demo_fs))
  = Returned
      (flat_map
         (listed_for demo_base demo_base
            (fun d => if Dirent.name d =? "src"
                      then ["src/Foo.txt"; "src/baz.txt"]
                      else ["bar/foobar.md"]))
         [dir "src"; file "README.md"; dir "bar"]).
Proof.
  apply (@walk_concatenates_in_listing_order demo_base 1 demo_base (boot demo_fs)).
  - vm_compute. reflexivity.
  - intros d [fs' err calls] Hin Hd Hdisk. simpl in Hdisk. subst fs'.
    destruct Hin as [<- | [<- | [<- | []]]]; try discriminate Hd; reflexivity.
Defined.

Section ReadsDirectoriesOnly.

Lemma rdo_ret (A : Type) (a : A) : reads_directories_only (ret a).
Proof.
  intros w. split; [reflexivity|]. exists []. simpl. now rewrite app_nil_r.
Qed.

Lemma rdo_pending (A : Type) : reads_directories_only (@pending A).
Proof.
  intros w. split; [reflexivity|]. exists []. simpl. now rewrite app_nil_r.
Qed.

Lemma rdo_bind (A B : Type) (m : io A) (k : A -> io B) :
  reads_directories_only m -> (forall a, reads_directories_only (k a)) ->
  reads_directories_only (bind m k).
Proof.
  intros Hm Hk w. unfold bind. destruct (Hm w) as (Hs & calls & Hc & Hall).
  destruct (m w) as [[a | e |] w1]; simpl in *.
  - destruct (Hk a w1) as (Hs' & calls' & Hc' & Hall').
    split; [congruence|]. exists (calls ++ calls')%list. split.
    + rewrite Hc', Hc. now rewrite app_assoc.
    + rewrite forallb_app. now rewrite Hall, Hall'.
  - split; trivial. now exists calls.
  - split; trivial. now exists calls.
Qed.

Lemma rdo_readdir_withFileTypes (dir : string) :
  reads_directories_only (readdir_withFileTypes dir).
Proof.
  intros w. unfold readdir_withFileTypes, bind, log_call, of_result. simpl.
  destruct (entries_at (disk w) dir); simpl; (split; [reflexivity|]);
    now exists [SysReaddir dir].
Qed.

Lemma rdo_for_of (A S : Type) (items : list A) (body : S -> A -> io S) (s : S) :
  (forall s item, reads_directories_only (body s item)) ->
  reads_directories_only (for_of items body s).
Proof.
  revert s. induction items as [|x l IH]; intros s H; simpl.
  - apply rdo_ret.
  - apply rdo_bind; [apply H|]. intros s'. now apply IH.
Qed.

Lemma rdo_walk (BASE_DIR : string) (fuel : nat) (dir : string) :
  reads_directories_only (listFilesRecursively BASE_DIR fuel dir).
Proof.
  revert dir. induction fuel as [|fuel IH]; intros dir.
  - apply rdo_pending.
  - cbn [listFilesRecursively]. apply rdo_bind.
    + apply rdo_readdir_withFileTypes.
    + intros items. apply rdo_for_of. intros files item.
      cbv zeta. destruct (Dirent.isDirectory item).
      * apply rdo_bind; [apply IH|]. intros sub. apply rdo_ret.
      * apply rdo_ret.
Qed.

End ReadsDirectoriesOnly.

(** X12: the walk of a directory begins with the read of that directory,
    and whatever it meets, all its other filesystem calls are directory
    reads too: it never reads a file, and it writes nothing to the error
    stream. *)
Theorem walk_only_reads_directories (BASE_DIR : string) (fuel : nat)
        (dir : string) (w : World) :
  exists rest,
    syscalls (snd (listFilesRecursively BASE_DIR (S fuel) dir w))
    = (syscalls w ++ SysReaddir dir :: rest)%list
    /\ forallb is_readdir rest = true
    /\ stderr (snd (listFilesRecursively BASE_DIR (S fuel) dir w)) = stderr w.
Proof.
  cbn [listFilesRecursively].
  destruct (entries_at (disk w) dir) as [e | items] eqn:E.
  - erewrite bind_thrown by (apply readdir_withFileTypes_fails; exact E).
    exists []. now repeat split.
  - erewrite bind_returned by (apply readdir_withFileTypes_ok; exact E).
    set (w1 := {| disk := disk w; stderr := stderr w;
                  syscalls := (syscalls w ++ [SysReaddir dir])%list |}).
    match goal with
    | |- context [for_of items ?body []] =>
        assert (H : reads_directories_only (for_of items body []))
    end.
    { apply rdo_for_of. intros files item. cbv zeta.
      destruct (Dirent.isDirectory item).
      - apply rdo_bind; [apply rdo_walk|]. intros sub. apply rdo_ret.
      - apply rdo_ret. }
    destruct (H w1) as (Hs & calls & Hc & Hall).
    exists calls. split; [|split]; trivial.
    rewrite Hc. unfold w1. cbn [syscalls]. now rewrite <- app_assoc.
Qed.

Lemma logged_nil (w : World) : logged w [] = w.
Proof. destruct w. unfold logged. simpl. now rewrite app_nil_r. Qed.

Lemma logged_logged (w : World) (a b : list Syscall) :
  logged (logged w a) b = logged w (a ++ b).
Proof. unfold logged. simpl. now rewrite app_assoc. Qed.

Section WalkCalls.

Variable fs : FileSystem.
Variable base : list string.
Hypothesis Hbase : good base.

Local Abbreviation BASE := (abs_path base).
Local Abbreviation walk := (listFilesRecursively BASE).
Local Abbreviation body fuel dirpath :=
  (fun (files : list string) (item : Dirent.t) =>
     let fullPath := join dirpath (Dirent.name item) in
     if Dirent.isDirectory item
     then bind (walk fuel fullPath) (fun sub => ret (files ++ sub)%list)
     else ret (files ++ [relative BASE BASE fullPath])%list).

Lemma readdir_below_cons (dir : list string) (n : string) (r : list string) :
  readdir_below (base ++ dir) (n :: r) = readdir_below (base ++ dir ++ [n]) r.
Proof.
  unfold readdir_below. f_equal. f_equal. rewrite <- !app_assoc. reflexivity.
Qed.

(** The calls of the loop over the entries of one directory. *)
Lemma loop_calls (dir : list string) (its : list Dirent.t) :
  good dir ->
  Forall (fun it => wf_name (Dirent.name it) = true) its ->
  NoDup (map Dirent.name its) ->
  (forall d, In d its -> Dirent.isDirectory d = true ->
     exists n D, walk_calls fs base (dir ++ [Dirent.name d]) n D
                 /\ directories_are D
                      (reaches_dir fs ((base ++ dir) ++ [Dirent.name d]))) ->
  exists n Ds,
    (forall fuel w acc, n <= fuel -> disk w = fs ->
       exists files,
         for_of its (body fuel (abs_path (base ++ dir))) acc w
         = (Returned files, logged w (map (readdir_below (base ++ dir)) Ds)))
    /\ directories_are Ds
         (fun p => exists d r, In d its /\ Dirent.isDirectory d = true /\
                               p = Dirent.name d :: r /\
                               reaches_dir fs ((base ++ dir) ++ [Dirent.name d]) r).
Proof.
  intros Hdir. induction its as [|x rest IH]; intros Hwf Hnd Hsub.
  - exists 0, []. split.
    + intros fuel w acc _ _. exists acc. simpl. unfold ret. now rewrite logged_nil.
    + split; [constructor|]. split; [constructor|].
      intros r. split; [intros [] | intros (d & r' & [] & _)].
  - inversion Hwf as [|? ? Hx Hwf']; subst.
    inversion Hnd as [|? ? Hnotin Hnd']; subst.
    destruct IH as (n2 & Ds2 & Hrun2 & Hnd2 & Hgood2 & Hin2); trivial.
    { intros d Hd. apply Hsub. now right. }
    assert (Hfull : join (abs_path (base ++ dir)) (Dirent.name x)
                    = abs_path (base ++ (dir ++ [Dirent.name x]))).
    { unfold join. rewrite join_abs; trivial; [now rewrite app_assoc|].
      now apply good_app. }
    destruct (Dirent.isDirectory x) eqn:Ex.
    + destruct (Hsub x (or_introl eq_refl) Ex)
        as (n1 & D1 & Hrun1 & Hnd1 & Hgood1 & Hin1).
      exists (Nat.max n1 n2), (map (cons (Dirent.name x)) D1 ++ Ds2)%list. split.
      * intros fuel w acc Hf Hw.
        destruct (Hrun1 fuel w ltac:(lia) Hw) as (files1 & E1).
        destruct (Hrun2 fuel
                    (logged w (map (readdir_below (base ++ dir ++ [Dirent.name x])) D1))
                    (acc ++ files1)%list ltac:(lia) Hw) as (files2 & E2).
        exists files2. cbn [for_of]. erewrite bind_returned.
        2:{ cbv beta zeta. rewrite Ex, Hfull. erewrite bind_returned by exact E1.
            reflexivity. }
        etransitivity; [exact E2|]. f_equal.
        rewrite logged_logged, map_app, map_map. f_equal. f_equal.
        apply map_ext. intros r. now rewrite readdir_below_cons.
      * split; [|split].
        -- apply NoDup_app; trivial.
           ++ apply Injective_map_NoDup; [|assumption].
              intros a b E. now inversion E.
           ++ intros r Hr1 Hr2. apply in_map_iff in Hr1 as (r' & <- & _).
              apply Hin2 in Hr2 as (d & r2 & Hd & _ & E & _).
              inversion E as [[En Er]]. apply Hnotin. rewrite En.
              now apply in_map.
        -- apply Forall_app. split; [|assumption].
           apply Forall_forall. intros r Hr.
           apply in_map_iff in Hr as (r' & <- & Hr').
           rewrite Forall_forall in Hgood1. constructor; [assumption | now apply Hgood1].
        -- intros r. rewrite in_app_iff, in_map_iff. split.
           ++ intros [(r' & <- & Hr') | Hr].
              ** exists x, r'. repeat split; trivial; [now left | now apply Hin1].
              ** apply Hin2 in Hr as (d & r' & Hd & Hdd & -> & Hreach).
                 exists d, r'. repeat split; trivial. now right.
           ++ intros (d & r' & [<- | Hd] & Hdd & -> & Hreach).
              ** left. exists r'. split; trivial. now apply Hin1.
              ** right. apply Hin2. now exists d, r'.
    + exists n2, Ds2. split.
      * intros fuel w acc Hf Hw.
        destruct (Hrun2 fuel w (acc ++ [relative BASE BASE
                                          (abs_path (base ++ dir ++ [Dirent.name x]))])%list
                    Hf Hw) as (files2 & E2).
        exists files2. cbn [for_of]. erewrite bind_returned.
        2:{ cbv beta zeta. rewrite Ex, Hfull. reflexivity. }
        exact E2.
      * split; [assumption|]. split; [assumption|].
        intros r. rewrite Hin2. split.
        -- intros (d & r' & Hd & Hdd & -> & Hreach).
           exists d, r'. repeat split; trivial. now right.
        -- intros (d & r' & [<- | Hd] & Hdd & -> & Hreach); [congruence|].
           now exists d, r'.
Qed.

(** On a tree the walk reads the directories of the tree, each once. *)
Lemma walk_tree_calls (full : list string) :
  tree fs full ->
  forall dir, good dir -> full = (base ++ dir)%list ->
  exists n D, walk_calls fs base dir n D
              /\ directories_are D (reaches_dir fs (base ++ dir)).
Proof.
  induction 1 as [full items E Hnd Hwf Hsub IH]. intros dir Hdir ->.
  destruct (@loop_calls dir items Hdir Hwf Hnd)
    as (n & Ds & Hrun & Hnd' & Hgood & Hin).
  { intros d Hd Hdd.
    destruct (IH d Hd Hdd (dir ++ [Dirent.name d])%list) as (n & D & H1 & H2).
    - apply good_app; trivial. constructor; [|constructor].
      rewrite Forall_forall in Hwf. now apply Hwf.
    - now rewrite app_assoc.
    - exists n, D. split; [exact H1|]. now rewrite <- app_assoc. }
  exists (S n), ([] :: Ds). split.
  - intros fuel w Hf Hw. destruct fuel as [|fuel]; [lia|].
    cbn [listFilesRecursively].
    erewrite bind_returned
      by (apply readdir_withFileTypes_ok; rewrite Hw; exact E).
    match goal with
    | |- context [for_of _ _ _ ?w1] =>
        destruct (Hrun fuel w1 [] ltac:(lia) Hw) as (files & E')
    end.
    exists files. etransitivity; [exact E'|]. f_equal.
    change (logged (logged w [SysReaddir (abs_path (base ++ dir))])
              (map (readdir_below (base ++ dir)) Ds)
            = logged w (map (readdir_below (base ++ dir)) ([] :: Ds))).
    rewrite logged_logged. cbn [map app].
    change (readdir_below (base ++ dir) [])
      with (SysReaddir (abs_path ((base ++ dir) ++ []))).
    now rewrite (app_nil_r (base ++ dir)).
  - split; [|split].
    + constructor; trivial. intros H0. apply Hin in H0 as (d & r & _ & _ & E0 & _).
      discriminate E0.
    + constructor; [constructor | assumption].
    + intros r. cbn [In]. rewrite Hin. split.
      * intros [<- | (d & r' & Hd & Hdd & -> & Hreach)]; [constructor|].
        apply reaches_dir_below; trivial. now exists items.
      * intros Hreach. inversion Hreach as [| ? d r' Hl Hdd Hr]; subst; [now left|].
        right. destruct Hl as (items' & E' & Hd). rewrite E in E'.
        inversion E'; subst. now exists d, r'.
Qed.

End WalkCalls.

(** X13: on a tree whose directories can all be read the filesystem calls
    of the walk are the reads of the directories of the tree, the base
    directory first, and each directory is read once: the walk makes as
    many calls as the tree has directories. *)
Theorem walk_reads_each_directory_once (fs : FileSystem) (base : list string) :
  good base -> tree fs base ->
  exists n D,
    (forall d, In d D <-> reaches_dir fs base d)
    /\ NoDup (map (readdir_below base) D)
    /\ forall fuel w, n <= fuel -> disk w = fs ->
         syscalls (snd (listFilesRecursively (abs_path base) fuel (abs_path base) w))
         = (syscalls w ++ map (readdir_below base) D)%list.
Proof.
  intros Hbase Ht.
  destruct (@walk_tree_calls fs base Hbase base Ht [] (Forall_nil _)
              (eq_sym (app_nil_r base)))
    as (n & D & Hrun & Hnd & Hgood & Hin).
  rewrite app_nil_r in Hin. exists n, D. split; [exact Hin|]. split.
  - apply Injective_map_NoDup_in; trivial.
    intros a b Ha Hb E.
    assert (E' : abs_path (base ++ a) = abs_path (base ++ b))
      by (unfold readdir_below in E; congruence).
    rewrite Forall_forall in Hgood.
    apply abs_path_inj in E'; try (apply good_app; auto).
    now apply app_inv_head in E'.
  - intros fuel w Hf Hw. destruct (Hrun fuel w Hf Hw) as (files & E).
    rewrite app_nil_r in E. now rewrite E.
Qed.

Lemma walk_reads_each_directory_once_witness :
  exists n D,
    (forall d, In d D <-> reaches_dir demo_fs demo_segments d)
    /\ NoDup (map (readdir_below demo_segments) D)
    /\ forall fuel w, n <= fuel -> disk w = demo_fs ->
         syscalls (snd (listFilesRecursively (abs_path demo_segments) fuel
                          (abs_path demo_segments) w))
         = (syscalls w ++ map (readdir_below demo_segments) D)%list.
Proof.
  apply (@walk_reads_each_directory_once demo_fs demo_segments).
  - exact demo_segments_good.
  - exact demo_tree.
Defined.

(** ** The walk ends on a finite tree *)

Section FuelEnough.

Variable BASE_DIR : string.

Local Abbreviation walk := (listFilesRecursively BASE_DIR).
Local Abbreviation body fuel dirpath :=
  (fun (files : list string) (item : Dirent.t) =>
     let fullPath := join dirpath (Dirent.name item) in
     if Dirent.isDirectory item
     then bind (walk fuel fullPath) (fun sub => ret (files ++ sub)%list)
     else ret (files ++ [relative BASE_DIR BASE_DIR fullPath])%list).

Lemma bind_more_fuel (A B : Type) (m m' : io A) (k k' : A -> io B) (w : World) :
  (fst (m w) <> Pending -> m' w = m w) ->
  (forall a w1, fst (k a w1) <> Pending -> k' a w1 = k a w1) ->
  fst (bind m k w) <> Pending -> bind m' k' w = bind m k w.
Proof.
  unfold bind. intros Hm Hk H.
  destruct (m w) as [[a | e |] w1] eqn:E; simpl in *.
  - rewrite Hm by discriminate. now apply Hk.
  - now rewrite Hm by discriminate.
  - now contradiction H.
Qed.

Lemma loop_more_fuel (n m : nat) (dirpath : string) (items : list Dirent.t) :
  (forall dir w, fst (walk n dir w) <> Pending -> walk m dir w = walk n dir w) ->
  forall acc w,
    fst (for_of items (body n dirpath) acc w) <> Pending ->
    for_of items (body m dirpath) acc w = for_of items (body n dirpath) acc w.
Proof.
  intros IHn. induction items as [|x rest IH]; intros acc w H; [reflexivity|].
  cbn [for_of] in *. revert H. apply bind_more_fuel.
  - destruct (Dirent.isDirectory x); [|reflexivity].
    apply bind_more_fuel; [apply IHn | reflexivity].
  - intros s w1. apply IH.
Qed.

(** More fuel does not change a walk that has ended. *)
Lemma walk_more_fuel (n : nat) :
  forall m dir w, n <= m ->
    fst (walk n dir w) <> Pending -> walk m dir w = walk n dir w.
Proof.
  induction n as [|n IH]; intros m dir w Hnm H.
  - now contradiction H.
  - destruct m as [|m]; [lia|]. cbn [listFilesRecursively] in *.
    revert H. apply bind_more_fuel; [reflexivity|].
    intros items w1. apply loop_more_fuel.
    intros dir' w' H'. apply IH; [lia | exact H'].
Qed.

End FuelEnough.

Lemma locked_finite : finite_tree locked_fs demo_base.
Proof.
  eapply finite_dir; [vm_compute; reflexivity|].
  intros d [<- | [<- | [<- | []]]] Hd; try discriminate Hd.
  eapply finite_unreadable. vm_compute. reflexivity.
Qed.

(** X14: on a finite tree, whether its directories can be read or not, the
    walk ends: it returns a list or it throws, and what it does is the
    same whatever fuel the model gives it beyond what it needs. *)
Theorem walk_ends_on_finite_tree (BASE_DIR : string) (fs : FileSystem)
        (dir : string) :
  finite_tree fs dir ->
  exists n, forall w, disk w = fs ->
    exists out w',
      out <> Pending
      /\ forall fuel, n <= fuel ->
           listFilesRecursively BASE_DIR fuel dir w = (out, w').
Proof.
  intros Hfin. destruct (walk_finishes BASE_DIR Hfin) as (n & Hn).
  exists n. intros w Hw.
  exists (fst (listFilesRecursively BASE_DIR n dir w)),
         (snd (listFilesRecursively BASE_DIR n dir w)).
  split; [now apply Hn|]. intros fuel Hf.
  rewrite (@walk_more_fuel BASE_DIR n fuel dir w Hf) by now apply Hn.
  now destruct (listFilesRecursively BASE_DIR n dir w).
Qed.

Lemma walk_ends_on_finite_tree_witness :
  exists n, forall w, disk w = locked_fs ->
    exists out w',
      out <> Pending
      /\ forall fuel, n <= fuel ->
           listFilesRecursively demo_base fuel demo_base w = (out, w').
Proof.
  apply (@walk_ends_on_finite_tree demo_base locked_fs demo_base).
  exact locked_finite.
Defined.

(** ** What is listed can be read *)

Lemma readResource_run (URL_pathname : string -> Error + string)
      (uri filePath : string) (w : World) :
  URL_pathname uri = inr filePath ->
  readResource URL_pathname uri w
  = (read_outcome (disk w) filePath
       (fun text => [ {| rc_uri := uri; rc_mimeType := "text/plain";
                         rc_text := text |} ]),
     logged w [SysReadFile filePath]).
Proof.
  intros Hurl. unfold readResource, bind, try_catch, read_outcome. rewrite Hurl.
  cbn [of_result ret]. rewrite readFile_run.
  now destruct (text_at (disk w) filePath).
Qed.

Lemma rel_path_not_empty (r : list string) :
  good r -> r <> [] -> rel_path r <> "".
Proof.
  intros Hg Hne E. pose proof (concat_good_not_empty Hg Hne) as N.
  unfold rel_path in E. rewrite E in N. discriminate.
Qed.

(** X15: on a tree, every path that the walker lists is the path of an
    entry of the tree that is not a directory, and [read-file] called with
    that path reads the file at the absolute path of that entry, by one
    call: what the recursive listing names, [read-file] finds. *)
Theorem listed_path_reads_listed_file (fs : FileSystem) (base : list string)
        (invalid_arg_message : JS.value -> string) :
  good base -> tree fs base ->
  exists n R,
    (forall r, In r R <-> leaf fs base r)
    /\ forall fuel w, n <= fuel -> disk w = fs ->
         fst (listFilesRecursively (abs_path base) fuel (abs_path base) w)
         = Returned (map rel_path R)
         /\ forall r request fuel' w',
              In r R ->
              ct_name request = "read-file" ->
              JS.opt_get (ct_arguments request) "path" = JS.Str (rel_path r) ->
              callTool (abs_path base) invalid_arg_message fuel' request w'
              = (read_outcome (disk w') (abs_path (base ++ r))
                   (fun text => [text_content text]),
                 logged w' [SysReadFile (abs_path (base ++ r))]).
Proof.
  intros Hbase Ht.
  destruct (@walk_tree fs base Hbase base Ht [] (Forall_nil _) (eq_sym (app_nil_r base)))
    as (n & R & Hwalk & [_ Hall] & Hin).
  rewrite Forall_forall in Hall.
  exists n, R. split.
  { intros r. rewrite Hin. now rewrite app_nil_r. }
  intros fuel w Hf Hw. destruct (Hwalk fuel w Hf Hw) as (w1 & E & _).
  rewrite app_nil_r in E. rewrite E. split; [reflexivity|].
  intros r request fuel' w' Hr Hname Hpath. destruct (Hall r Hr) as [Hg Hne].
  rewrite (callTool_read_file_run _ _ _ _ _ Hname Hpath (rel_path_not_empty Hg Hne)).
  now rewrite (join_abs_rel Hbase Hg Hne).
Qed.

Lemma listed_path_reads_listed_file_witness :
  exists n R,
    (forall r, In r R <-> leaf demo_fs demo_segments r)
    /\ forall fuel w, n <= fuel -> disk w = demo_fs ->
         fst (listFilesRecursively (abs_path demo_segments) fuel
                (abs_path demo_segments) w)
         = Returned (map rel_path R)
         /\ forall r request fuel' w',
              In r R ->
              ct_name request = "read-file" ->
              JS.opt_get (ct_arguments request) "path" = JS.Str (rel_path r) ->
              callTool (abs_path demo_segments) arg_type_message fuel' request w'
              = (read_outcome (disk w') (abs_path (demo_segments ++ r))
                   (fun text => [text_content text]),
                 logged w' [SysReadFile (abs_path (demo_segments ++ r))]).
Proof.
  apply (@listed_path_reads_listed_file demo_fs demo_segments arg_type_message).
  - exact demo_segments_good.
  - exact demo_tree.
Defined.

(** X16: on a tree, every resource that the catalog lists carries the
    relative path of an entry of the tree for its name and [file://]
    before the absolute path of that entry for its URI, and a
    read-resource request for that URI reads the file at that absolute
    path, provided the URL parser gives the path back for the pathname of
    the URI, as it does for a path that needs no escaping. *)
Theorem listed_resource_can_be_read (fs : FileSystem) (base : list string)
        (URL_pathname : string -> Error + string) :
  good base -> tree fs base ->
  exists n, forall fuel w, n <= fuel -> disk w = fs ->
    exists resources,
      fst (listResources (abs_path base) fuel w) = Returned resources
      /\ forall res, In res resources ->
           exists r,
             leaf fs base r
             /\ res_name res = rel_path r
             /\ res_uri res = "file://" ++ abs_path (base ++ r)
             /\ forall w',
                  URL_pathname (res_uri res) = inr (abs_path (base ++ r)) ->
                  readResource URL_pathname (res_uri res) w'
                  = (read_outcome (disk w') (abs_path (base ++ r))
                       (fun text => [ {| rc_uri := res_uri res;
                                         rc_mimeType := "text/plain";
                                         rc_text := text |} ]),
                     logged w' [SysReadFile (abs_path (base ++ r))]).
Proof.
  intros Hbase Ht.
  destruct (@walk_tree fs base Hbase base Ht [] (Forall_nil _) (eq_sym (app_nil_r base)))
    as (n & R & Hwalk & [_ Hall] & Hin).
  rewrite Forall_forall in Hall.
  exists n. intros fuel w Hf Hw. destruct (Hwalk fuel w Hf Hw) as (w1 & E & _).
  rewrite app_nil_r in E. unfold listResources, bind. rewrite E.
  eexists. split; [reflexivity|].
  intros res Hres. apply in_map_iff in Hres as (p & <- & Hp).
  apply in_map_iff in Hp as (r & <- & Hr). destruct (Hall r Hr) as [Hg Hne].
  exists r. split; [|split; [|split]].
  - apply Hin in Hr. now rewrite app_nil_r in Hr.
  - reflexivity.
  - cbn [res_uri app]. unfold join. now rewrite (join_abs_rel Hbase Hg Hne).
  - intros w' Hurl. now apply readResource_run.
Qed.

Lemma listed_resource_can_be_read_witness :
  exists n, forall fuel w, n <= fuel -> disk w = demo_fs ->
    exists resources,
      fst (listResources (abs_path demo_segments) fuel w) = Returned resources
      /\ forall res, In res resources ->
           exists r,
             leaf demo_fs demo_segments r
             /\ res_name res = rel_path r
             /\ res_uri res = "file://" ++ abs_path (demo_segments ++ r)
             /\ forall w',
                  file_URL_pathname (res_uri res) = inr (abs_path (demo_segments ++ r)) ->
                  readResource file_URL_pathname (res_uri res) w'
                  = (read_outcome (disk w') (abs_path (demo_segments ++ r))
                       (fun text => [ {| rc_uri := res_uri res;
                                         rc_mimeType := "text/plain";
                                         rc_text := text |} ]),
                     logged w' [SysReadFile (abs_path (demo_segments ++ r))]).
Proof.
  apply (@listed_resource_can_be_read demo_fs demo_segments file_URL_pathname).
  - exact demo_segments_good.
  - exact demo_tree.
Defined.

(** ** No containment: a path that climbs out of the base directory *)

Lemma normalize_segments_climb (allow : bool) (acc rest : list string) :
  good acc ->
  Path.normalize_segments allow acc (repeat ".." (length acc) ++ rest)
  = Path.normalize_segments allow [] rest.
Proof.
  induction acc as [|last acc IH]; intros Hg; [reflexivity|].
  inversion Hg as [|? ? Hlast Hacc]; subst.
  apply wf_name_inv in Hlast as (_ & _ & _ & Hdd). apply String.eqb_neq in Hdd.
  cbn [length repeat app Path.normalize_segments String.eqb Ascii.eqb Bool.eqb orb].
  rewrite Hdd. now apply IH.
Qed.

Lemma concat_app_not_empty (a r : list string) :
  good r -> r <> [] -> Str.is_empty (String.concat "/" (a ++ r)) = false.
Proof.
  intros Hg Hne. destruct a as [|x a]; [now apply concat_good_not_empty|].
  cbn [app]. destruct (a ++ r)%list as [|y l] eqn:E.
  - destruct a; [simpl in E; congruence | discriminate E].
  - change (String.concat "/" (x :: y :: l))
      with (x ++ String Path.slash (String.concat "/" (y :: l))).
    rewrite is_empty_app. now destruct (Str.is_empty x).
Qed.

Lemma ends_with_slash_concat_app (a r : list string) :
  good r -> r <> [] ->
  Str.ends_with_char Path.slash (String.concat "/" (a ++ r)) = false.
Proof.
  intros Hg Hne. induction a as [|x a IH]; [now apply ends_with_slash_concat|].
  cbn [app]. pose proof (concat_app_not_empty a Hg Hne) as N.
  destruct (a ++ r)%list as [|y l] eqn:E; [discriminate N|].
  change (String.concat "/" (x :: y :: l))
    with (x ++ String Path.slash (String.concat "/" (y :: l))).
  rewrite ends_with_char_app by discriminate.
  destruct (String.concat "/" (y :: l)); [discriminate N | exact IH].
Qed.

Lemma repeat_free (n : nat) :
  Forall (fun s => Str.free_of Path.slash s = true) (repeat ".." n).
Proof. induction n; simpl; constructor; trivial. Qed.

(** Joining a directory with a path that climbs as many directories as the
    directory is deep, and then goes down, gives the path that goes down
    from the root. *)
Lemma join_climbing (base r : list string) :
  good base -> good r -> r <> [] ->
  Path.join (abs_path base) (climbing_path (length base) r) = abs_path r.
Proof.
  intros Hb Hr Hne. unfold Path.join, climbing_path, rel_path.
  rewrite abs_path_not_empty, (concat_app_not_empty _ Hr Hne).
  set (up := repeat ".." (length base)).
  set (joined := abs_path base ++ "/" ++ String.concat "/" (up ++ r)).
  assert (Hj : Str.is_empty joined = false) by reflexivity.
  rewrite Hj. unfold Path.normalize. rewrite Hj.
  assert (Habs : Path.isAbsolute joined = true) by reflexivity.
  rewrite Habs.
  assert (Hsplit : Path.normalize_segments false []
                     (Str.split Path.slash joined) = r).
  { unfold joined.
    change ("/" ++ String.concat "/" (up ++ r))
      with (String Path.slash (String.concat "/" (up ++ r))).
    rewrite split_app_sep, normalize_segments_app, (split_abs_path Hb).
    rewrite split_concat.
    - unfold up. rewrite <- length_rev.
      rewrite normalize_segments_climb by now apply Forall_rev.
      now apply normalize_segments_good.
    - destruct up; [assumption | discriminate].
    - apply Forall_app. split; [apply repeat_free | now apply good_free]. }
  assert (Htrail : Str.ends_with_char Path.slash joined = false).
  { unfold joined. rewrite ends_with_char_app by discriminate.
    pose proof (ends_with_slash_concat_app up Hr Hne) as E.
    pose proof (concat_app_not_empty up Hr Hne) as N.
    change ("/" ++ String.concat "/" (up ++ r))
      with (String Path.slash (String.concat "/" (up ++ r))).
    destruct (String.concat "/" (up ++ r)); [discriminate | exact E]. }
  rewrite Htrail. unfold Path.normalizeString. cbn [negb]. rewrite Hsplit.
  now rewrite (concat_good_not_empty Hr Hne).
Qed.

Lemma climbing_path_not_empty (n : nat) (r : list string) :
  good r -> r <> [] -> climbing_path n r <> "".
Proof.
  intros Hg Hne E. pose proof (concat_app_not_empty (repeat ".." n) Hg Hne) as N.
  unfold climbing_path, rel_path in E. rewrite E in N. discriminate.
Qed.

(** X17: neither [read-file] nor the prompt [file-contents] keeps to the
    base directory: for every absolute path of proper names there is a
    relative path, one that first climbs out of the base directory with
    [..], with which the handler reads the file at that absolute path. *)
Theorem relative_path_escapes_base (base r : list string)
        (number_to_string : float -> string)
        (invalid_arg_message : JS.value -> string) (fuel : nat)
        (tool : CallToolRequest) (prompt : GetPromptRequest) (w : World) :
  good base -> good r -> r <> [] ->
  ct_name tool = "read-file" ->
  JS.opt_get (ct_arguments tool) "path"
  = JS.Str (climbing_path (length base) r) ->
  gpr_name prompt = FILE_PROMPT_NAME ->
  JS.opt_get (gpr_arguments prompt) "path"
  = JS.Str (climbing_path (length base) r) ->
  callTool (abs_path base) invalid_arg_message fuel tool w
  = (read_outcome (disk w) (abs_path r) (fun text => [text_content text]),
     logged w [SysReadFile (abs_path r)])
  /\ getPrompt (abs_path base) number_to_string invalid_arg_message prompt w
     = (read_outcome (disk w) (abs_path r)
          (prompt_result (climbing_path (length base) r)),
        logged (reported w GET_PROMPT_LINE) [SysReadFile (abs_path r)]).
Proof.
  intros Hb Hr Hne Htool Hpath Hprompt Hpath'.
  pose proof (climbing_path_not_empty (length base) Hr Hne) as Hs.
  rewrite (callTool_read_file_run _ _ _ _ _ Htool Hpath Hs).
  rewrite (getPrompt_run _ _ _ _ _ Hprompt Hpath' Hs).
  now rewrite (join_climbing Hb Hr Hne).
Qed.

Lemma relative_path_escapes_base_witness :
  callTool (abs_path demo_segments) arg_type_message 1
    {| ct_name := "read-file";
       ct_arguments := Some [("path", JS.Str "../../etc/passwd")] |}
    (boot demo_fs)
  = (read_outcome demo_fs "/etc/passwd" (fun text => [text_content text]),
     logged (boot demo_fs) [SysReadFile "/etc/passwd"])
  /\ getPrompt (abs_path demo_segments) no_number arg_type_message
       {| gpr_name := "file-contents";
          gpr_arguments := Some [("path", JS.Str "../../etc/passwd")] |}
       (boot demo_fs)
     = (read_outcome demo_fs "/etc/passwd" (prompt_result "../../etc/passwd"),
        logged (reported (boot demo_fs) GET_PROMPT_LINE)
          [SysReadFile "/etc/passwd"]).
Proof.
  apply (@relative_path_escapes_base demo_segments ["etc"; "passwd"]
           no_number arg_type_message 1
           {| ct_name := "read-file";
              ct_arguments := Some [("path", JS.Str "../../etc/passwd")] |}
           {| gpr_name := "file-contents";
              gpr_arguments := Some [("path", JS.Str "../../etc/passwd")] |}
           (boot demo_fs)).
  - exact demo_segments_good.
  - repeat constructor.
  - discriminate.
  - reflexivity.
  - reflexivity.
  - reflexivity.
  - reflexivity.
Defined.

(** ** The handlers that list never read a file *)

Lemma walk_world (BASE_DIR : string) (fuel : nat) (dir : string) (w : World) :
  exists calls,
    snd (listFilesRecursively BASE_DIR fuel dir w) = logged w calls
    /\ forallb is_readdir calls = true.
Proof.
  destruct (traced_walk BASE_DIR fuel dir w) as (Hd & _ & _).
  destruct (rdo_walk BASE_DIR fuel dir w) as (Hs & calls & Hc & Hall).
  exists calls. split; [|assumption].
  destruct (snd (listFilesRecursively BASE_DIR fuel dir w)) as [d s c].
  unfold logged. simpl in *. congruence.
Qed.

(** X18: the two handlers that list, of resources and of completions,
    leave the filesystem as it is and make directory reads only: neither
    reads the text of a file.  The catalog writes nothing to the error
    stream, completion its one line. *)
Theorem listing_handlers_only_read_directories (BASE_DIR : string)
        (toLowerCase : string -> string) (fuel : nat)
        (request : CompleteRequest) (w : World) :
  (exists calls,
     snd (listResources BASE_DIR fuel w) = logged w calls
     /\ forallb is_readdir calls = true)
  /\ (exists calls,
        snd (complete BASE_DIR toLowerCase fuel request w)
        = logged (reported w COMPLETE_LINE) calls
        /\ forallb is_readdir calls = true).
Proof.
  split.
  - destruct (walk_world BASE_DIR fuel BASE_DIR w) as (calls & E & Hall).
    exists calls. split; [|assumption]. rewrite <- E.
    unfold listResources, bind.
    now destruct (listFilesRecursively BASE_DIR fuel BASE_DIR w) as [[files | e |] w1].
  - unfold complete, bind at 1, stderr_write.
    fold (reported w ("Handling completions/complete request" ++ newline)).
    change ("Handling completions/complete request" ++ newline) with COMPLETE_LINE.
    destruct (strict_equal_string _ _).
    + destruct (walk_world BASE_DIR fuel BASE_DIR (reported w COMPLETE_LINE))
        as (calls & E & Hall).
      exists calls. split; [|assumption]. rewrite <- E. unfold bind.
      now destruct (listFilesRecursively BASE_DIR fuel BASE_DIR _) as [[files | e |] w1].
    + exists []. now rewrite logged_nil.
Qed.

(** ** The JSON text of a listing *)

Lemma unquote_quote_char (c : ascii) (rest : string) :
  unquote_char (JSON.quote_char c ++ rest) = Some (c, rest).
Proof.
  destruct c as [[|] [|] [|] [|] [|] [|] [|] [|]]; reflexivity.
Qed.

Lemma quote_char_not_quote (c : ascii) (rest t : string) :
  JSON.quote_char c ++ rest <> String (ascii_of_nat 34) t.
Proof.
  destruct c as [[|] [|] [|] [|] [|] [|] [|] [|]]; discriminate.
Qed.

Lemma quote_body_cons (c : ascii) (s rest : string) :
  JSON.quote_body (String c s) ++ rest
  = JSON.quote_char c ++ (JSON.quote_body s ++ rest).
Proof. cbn [JSON.quote_body]. apply append_assoc. Qed.

(** The body of a quoted string ends at the first quote that is not
    escaped. *)
Lemma quote_body_closed (s1 s2 t1 t2 : string) :
  JSON.quote_body s1 ++ String (ascii_of_nat 34) t1
  = JSON.quote_body s2 ++ String (ascii_of_nat 34) t2 ->
  s1 = s2 /\ t1 = t2.
Proof.
  revert s2. induction s1 as [|c1 s1 IH]; intros [|c2 s2] E.
  - simpl in E. inversion E. now split.
  - rewrite quote_body_cons in E. symmetry in E.
    now apply quote_char_not_quote in E.
  - rewrite quote_body_cons in E. now apply quote_char_not_quote in E.
  - rewrite !quote_body_cons in E.
    apply (f_equal unquote_char) in E. rewrite !unquote_quote_char in E.
    inversion E as [[Ec Erest]]. destruct (IH _ Erest) as [-> ->]. now split.
Qed.

Lemma array_body_cons (a : string) (l : list string) (tail : string) :
  array_body (a :: l) tail
  = String (ascii_of_nat 34)
      (JSON.quote_body a
       ++ String (ascii_of_nat 34)
            (match l with
             | [] => tail
             | _ :: _ => array_separator ++ array_body l tail
             end)).
Proof.
  unfold array_body. destruct l as [|b l].
  - cbn [map String.concat]. unfold JSON.quote, JSON.char.
    cbn [append]. now rewrite append_assoc.
  - change (String.concat array_separator (map JSON.quote (a :: b :: l)))
      with (JSON.quote a ++ array_separator
              ++ String.concat array_separator (map JSON.quote (b :: l))).
    unfold JSON.quote, JSON.char. cbn [append].
    now rewrite !append_assoc.
Qed.

Lemma array_body_inj (l1 l2 : list string) :
  l1 <> [] -> l2 <> [] ->
  array_body l1 (JSON.char 10 ++ "]") = array_body l2 (JSON.char 10 ++ "]") ->
  l1 = l2.
Proof.
  revert l2. induction l1 as [|a l1 IH]; intros [|b l2] H1 H2 E; try congruence.
  rewrite !array_body_cons in E. inversion E as [E'].
  apply quote_body_closed in E' as [-> Erest].
  destruct l1 as [|a' l1], l2 as [|b' l2]; trivial; try discriminate Erest.
  f_equal. apply IH; try discriminate.
  unfold array_separator, JSON.char in Erest. cbn [append] in Erest.
  now inversion Erest.
Qed.

(** X19: the JSON text in which [list-files] returns a listing tells the
    listings apart: two lists of names that differ have texts that
    differ, whatever characters the names hold. *)
Theorem stringify_tells_listings_apart (files files' : list string) :
  files <> files' -> JSON.stringify files <> JSON.stringify files'.
Proof.
  intros Hne E. apply Hne. clear Hne.
  destruct files as [|a l], files' as [|b l']; trivial; try discriminate E.
  apply array_body_inj; try discriminate.
  unfold JSON.stringify, JSON.char in E. cbn [append] in E.
  inversion E as [E']. unfold array_body, array_separator, JSON.char.
  exact E'.
Qed.

Lemma stringify_tells_listings_apart_witness :
  JSON.stringify ["a"; "b"] <> JSON.stringify ["a" ++ JSON.quote "," ++ "b"].
Proof.
  apply (@stringify_tells_listings_apart ["a"; "b"] ["a" ++ JSON.quote "," ++ "b"]).
  discriminate.
Defined.
